(** * msocks/conn.go: a shallow embedding of the per-stream connection engine

    The file follows the Go source [msocks/conn.go]:
    - [DelayDo] (ack batcher) together with the Go timers it starts;
    - [Pipe] (the synchronous byte channel built on [io.Pipe]);
    - [ChanFrameSender] (the bounded inbox, a buffered Go channel);
    - [Conn] (dispatch loop [Run], [Write], [Close], [CloseAll],
      [remove_port]).
    Collaborators of the session ([SeqWriter], [Session]) are not part of
    [conn.go]; where a claim depends on them they are modelled from the
    spec and marked as such. *)

From Stdlib Require Import Arith Lia Bool.
From stdpp Require Import base list.
From Stdlib Require String DecimalString DecimalN.
Import String.StringSyntax.


(* ------------------------------------------------------------------ *)
(** ** Errors and frames *)

(** The Go errors the code compares against: [io.EOF], [io.ErrClosedPipe]
    and any other error value. A Go [error] is [option GoErr] ([None] is
    [nil]). *)
Inductive GoErr :=
| EOF
| ErrClosedPipe
| ErrOther (code : nat).

#[global] Instance GoErr_eq_dec : EqDecision GoErr.
Proof. solve_decision. Defined.

Definition error := option GoErr.

(** [Frame] is a Go interface; [Run] type-switches on [*FrameData],
    [*FrameAck], [*FrameFin] and sends every other frame type to its
    [default] branch, represented here by [FrameOther]. *)
Inductive Frame :=
| FrameData (Streamid : N) (Data : list Byte.byte)
| FrameAck (Streamid : N) (Window : N)
| FrameFin (Streamid : N)
| FrameOther (tag : nat).

(* ------------------------------------------------------------------ *)
(** ** Pipe *)

(** [type Pipe struct { Closed bool; pr *io.PipeReader; pw *io.PipeWriter }]:
    the two ends are represented by whether they have been closed. *)
Record Pipe := mkPipe {
  Closed : bool;
  pr_closed : bool;
  pw_closed : bool
}.

(** [NewPipe] *)
Definition NewPipe : Pipe := mkPipe false false false.

(** [func (p *Pipe) Read(data []byte) (n int, err error)]: [pr_read] is the
    underlying [p.pr.Read]; its error is translated. *)
Definition Pipe_Read (pr_read : list Byte.byte -> nat * error)
    (data : list Byte.byte) : nat * error :=
  let '(n, err) := pr_read data in
  let err := if decide (err = Some ErrClosedPipe) then Some EOF else err in
  (n, err).

(** [func (p *Pipe) Write(data []byte) (n int, err error)]: [pw_write] is
    the underlying [p.pw.Write]. *)
Definition Pipe_Write (pw_write : list Byte.byte -> nat * error)
    (data : list Byte.byte) : nat * error :=
  let '(n, err) := pw_write data in
  let err := if decide (err = Some ErrClosedPipe) then Some EOF else err in
  (n, err).

(** [io.PipeWriter.Write] of the standard library: once either end is
    closed (with a nil error) the write fails with [io.ErrClosedPipe];
    otherwise the rendezvous with the reader decides the result, given by
    [rendezvous]. *)
Definition io_pipe_write (p : Pipe) (rendezvous : list Byte.byte -> nat * error)
    (data : list Byte.byte) : nat * error :=
  if pr_closed p || pw_closed p then (0, Some ErrClosedPipe)
  else rendezvous data.

(** [func (p *Pipe) Close() (err error)]: sets [Closed], closes both ends
    ([io.PipeReader.Close] and [io.PipeWriter.Close] results are discarded)
    and returns the named result, which is never assigned. *)
Definition Pipe_Close (p : Pipe) : Pipe * error :=
  let p := {| Closed := true; pr_closed := pr_closed p; pw_closed := pw_closed p |} in
  let p := {| Closed := Closed p; pr_closed := true; pw_closed := pw_closed p |} in
  let p := {| Closed := Closed p; pr_closed := pr_closed p; pw_closed := true |} in
  (p, None).

(* ------------------------------------------------------------------ *)
(** ** ChanFrameSender *)

(** [type ChanFrameSender chan Frame], made by [make(chan Frame, i)]: a
    buffered channel with its capacity, its buffer (oldest first) and
    whether it has been closed. *)
Record ChanFrameSender := mkChan {
  ch_cap : nat;
  ch_buf : list Frame;
  ch_closed : bool
}.

(** [NewChanFrameSender(i)] *)
Definition NewChanFrameSender (i : nat) : ChanFrameSender := mkChan i [] false.

(** [func (c ChanFrameSender) SendFrame(f Frame) (b bool)]: a [select] with
    a [default] branch. [receiver_waiting] tells whether a goroutine (the
    dispatch loop) is blocked in a receive on the channel. A send on a
    closed channel panics; the deferred [recover()] swallows the panic and
    the named result [b] keeps its zero value [false]. Otherwise the send
    can proceed when a receiver is waiting (the frame is handed to it
    directly, the third result) or the buffer has room (the frame is
    appended); else the [select] takes the [default] branch. *)
Definition SendFrame (c : ChanFrameSender) (receiver_waiting : bool) (f : Frame)
    : bool * ChanFrameSender * option Frame :=
  if ch_closed c then (false, c, None)   (* panic, recovered *)
  else if receiver_waiting then (true, c, Some f)
  else if length (ch_buf c) <? ch_cap c then
    (true, {| ch_cap := ch_cap c; ch_buf := ch_buf c ++ [f]; ch_closed := false |}, None)
  else (false, c, None).                 (* default: *)

(** [func (c ChanFrameSender) CloseSend()]: [close(c)], a second close
    panics and the panic is recovered. *)
Definition CloseSend (c : ChanFrameSender) : ChanFrameSender :=
  {| ch_cap := ch_cap c; ch_buf := ch_buf c; ch_closed := true |}.

(* ------------------------------------------------------------------ *)
(** ** DelayDo and the Go timers it starts *)

(** [type DelayDo struct { lock; delay; timer *time.Timer; cnt int; do }].
    Every method body runs under [d.lock], so each one is one atomic step.
    The timers are part of the state because [time.AfterFunc] timers live
    on after [d.timer] stops pointing to them:
    - [dd_timer] is the field [d.timer] ([None] is [nil], otherwise the
      identity of the timer it points to);
    - [dd_armed]: started timers that have neither expired nor been
      stopped;
    - [dd_launched]: expired timers whose callback goroutine has started
      and waits for [d.lock] ([Timer.Stop] no longer affects them);
    - [dd_next]: identity of the next timer [time.AfterFunc] creates;
    - [dd_log]: the arguments of the calls [d.do(n)] so far, oldest first.
    [d.delay] only decides when a timer expires; the expiry is an event of
    its own ([EvExpire]) that may happen between any two locked steps. *)
Record DelayDo := mkDelayDo {
  dd_cnt : nat;
  dd_timer : option nat;
  dd_armed : list nat;
  dd_launched : list nat;
  dd_next : nat;
  dd_log : list nat
}.

(** [NewDelayDo(delay, do)] *)
Definition NewDelayDo : DelayDo := mkDelayDo 0 None [] [] 0 [].

Definition set_cnt (n : nat) (d : DelayDo) : DelayDo :=
  mkDelayDo n (dd_timer d) (dd_armed d) (dd_launched d) (dd_next d) (dd_log d).

Definition set_timer (t : option nat) (d : DelayDo) : DelayDo :=
  mkDelayDo (dd_cnt d) t (dd_armed d) (dd_launched d) (dd_next d) (dd_log d).

(** [d.do(n)]: the action is recorded with its argument. *)
Definition call_do (n : nat) (d : DelayDo) : DelayDo :=
  mkDelayDo (dd_cnt d) (dd_timer d) (dd_armed d) (dd_launched d) (dd_next d)
    (dd_log d ++ [n]).

Definition remove_id (t : nat) (l : list nat) : list nat :=
  List.filter (fun x => negb (x =? t)) l.

Definition mem_id (t : nat) (l : list nat) : bool := existsb (Nat.eqb t) l.

(** [t.Stop()]: cancels the timer if it has not expired yet; a timer whose
    callback has already been started cannot be stopped. *)
Definition timer_Stop (t : nat) (d : DelayDo) : DelayDo :=
  mkDelayDo (dd_cnt d) (dd_timer d) (remove_id t (dd_armed d)) (dd_launched d)
    (dd_next d) (dd_log d).

(** [d.timer = time.AfterFunc(d.delay, ...)]: a fresh armed timer. *)
Definition AfterFunc (d : DelayDo) : DelayDo :=
  mkDelayDo (dd_cnt d) (Some (dd_next d)) (dd_next d :: dd_armed d)
    (dd_launched d) (S (dd_next d)) (dd_log d).

(** [func (d *DelayDo) Add()]; [WIN_SIZE] is the package constant (not
    defined in conn.go). *)
Definition Add (WIN_SIZE : nat) (d : DelayDo) : DelayDo :=
  let d := set_cnt (dd_cnt d + 1) d in
  let d :=
    if WIN_SIZE <=? dd_cnt d then
      let d := call_do (dd_cnt d) d in
      let d := match dd_timer d with
               | Some t => set_timer None (timer_Stop t d)
               | None => d
               end in
      set_cnt 0 d
    else d in
  if negb (dd_cnt d =? 0) && (if dd_timer d then false else true)
  then AfterFunc d else d.

(** The body of the callback passed to [time.AfterFunc]. *)
Definition timer_callback (d : DelayDo) : DelayDo :=
  let d := if 0 <? dd_cnt d then call_do (dd_cnt d) d else d in
  let d := set_timer None d in
  set_cnt 0 d.

(** Events: a call of [Add], the expiry of armed timer [t] (its callback
    goroutine starts and waits for the lock), and the callback of an
    expired timer [t] taking the lock and running. *)
Inductive DDEvent :=
| EvAdd
| EvExpire (t : nat)
| EvCallback (t : nat).

Definition dd_event (WIN_SIZE : nat) (e : DDEvent) (d : DelayDo) : option DelayDo :=
  match e with
  | EvAdd => Some (Add WIN_SIZE d)
  | EvExpire t =>
      if mem_id t (dd_armed d)
      then Some (mkDelayDo (dd_cnt d) (dd_timer d) (remove_id t (dd_armed d))
                   (dd_launched d ++ [t]) (dd_next d) (dd_log d))
      else None
  | EvCallback t =>
      if mem_id t (dd_launched d)
      then Some (timer_callback
                   (mkDelayDo (dd_cnt d) (dd_timer d) (dd_armed d)
                      (remove_id t (dd_launched d)) (dd_next d) (dd_log d)))
      else None
  end.

(** Runs a sequence of events; [None] if some event is not possible. *)
Fixpoint dd_run (WIN_SIZE : nat) (es : list DDEvent) (d : DelayDo) : option DelayDo :=
  match es with
  | [] => Some d
  | e :: es' =>
      match dd_event WIN_SIZE e d with
      | Some d' => dd_run WIN_SIZE es' d'
      | None => None
      end
  end.

Definition count_adds (es : list DDEvent) : nat :=
  length (List.filter (fun e => match e with EvAdd => true | _ => false end) es).

Definition sum_list (l : list nat) : nat := fold_right Nat.add 0 l.

(* ------------------------------------------------------------------ *)
(** ** Conn.Write *)

(** [uint32(x)] of a non-negative Go [int]: [x mod 2^32] (computed in
    [N]). *)
Definition uint32 (x : nat) : nat := N.to_nat (N.modulo (N.of_nat x) (2 ^ 32)%N).

(** The [switch] of [Conn.Write] on [size := uint32(len(data))] ([r] is
    the value of [rand.Intn(1024)]). *)
Definition chunk_size (size r : nat) : nat :=
  if 8 * 1024 <? size then 3 * 1024 + r
  else if (4 * 1024 <? size) && (size <=? 8 * 1024) then size / 2
  else size.

Section Write.
(** [rand_Intn k]: the value [rand.Intn(1024)] gives for chunk [k];
    [sw_Data k chunk]: the result of [c.sw.Data(c.streamid, chunk)] for
    chunk [k] (the session's sender, outside conn.go). *)
Variable rand_Intn : nat -> nat.
Variable sw_Data : nat -> list Byte.byte -> error.

(** The [for len(data) > 0] loop. Result: the named results [n] and
    [err], and the chunks handed to [c.sw.Data], in order; [None] when
    [fuel] iterations did not end the loop. *)
Fixpoint write_loop (fuel k : nat) (data : list Byte.byte) (n : nat)
    : option (nat * error * list (list Byte.byte)) :=
  match data with
  | [] => Some (n, None, [])
  | _ :: _ =>
      match fuel with
      | O => None
      | S fuel' =>
          let size := chunk_size (uint32 (length data)) (rand_Intn k) in
          let chunk := take size data in
          match sw_Data k chunk with
          | Some e => Some (n, Some e, [chunk])
          | None =>
              match write_loop fuel' (S k) (drop size data) (n + size) with
              | Some (n', err, sent) => Some (n', err, chunk :: sent)
              | None => None
              end
          end
      end
  end.

(** [func (c *Conn) Write(data []byte) (n int, err error)]: [None] when
    the loop does not end within [len(data)] iterations (enough when every
    chunk is non-empty). *)
Definition Conn_Write (data : list Byte.byte) : option (nat * error * list (list Byte.byte)) :=
  write_loop (length data) 0 data 0.
End Write.

(** The chunking policy in the words of the spec, to compare [Conn_Write]
    with: for the [remaining] bytes, a chunk of a payload larger than 8 KiB
    has a size in [3 KiB, 4 KiB), one in (4 KiB, 8 KiB] is halved and one
    of at most 4 KiB is sent whole. *)
Definition policy_size_ok (remaining size : nat) : Prop :=
  (8 * 1024 < remaining -> 3 * 1024 <= size < 4 * 1024) /\
  (4 * 1024 < remaining <= 8 * 1024 -> size = remaining / 2) /\
  (remaining <= 4 * 1024 -> size = remaining).

(** Each chunk is the next piece of what is left of the payload and its
    size follows [policy_size_ok]. *)
Fixpoint chunks_follow_policy (data : list Byte.byte) (cs : list (list Byte.byte)) : Prop :=
  match cs with
  | [] => True
  | ch :: cs' =>
      policy_size_ok (length data) (length ch) /\
      ch = take (length ch) data /\
      chunks_follow_policy (drop (length ch) data) cs'
  end.

(* ------------------------------------------------------------------ *)
(** ** Conn *)

(** [type Conn struct { Pipe; ChanFrameSender; sess; streamid; removefunc
    sync.Once; dd *DelayDo; sw *SeqWriter }]. Of the [SeqWriter] the code
    uses whether the send side is closed and the send window; of the
    session the number of [sess.RemovePorts] calls is observed. *)
Record Conn := mkConn {
  c_pipe : Pipe;
  c_chan : ChanFrameSender;
  c_dd : DelayDo;
  sw_closed : bool;
  sw_window : N;
  once_done : bool;
  removes : nat
}.

(** [NewConn(streamid, sess)]; [CHANLEN] is the package constant. The
    dispatch goroutine [go c.Run()] is modelled by [Run] below. *)
Definition NewConn (CHANLEN : nat) : Conn :=
  mkConn NewPipe (NewChanFrameSender CHANLEN) NewDelayDo false 0 false 0.

Definition set_pipe (p : Pipe) (c : Conn) : Conn :=
  mkConn p (c_chan c) (c_dd c) (sw_closed c) (sw_window c) (once_done c) (removes c).
Definition set_chan (ch : ChanFrameSender) (c : Conn) : Conn :=
  mkConn (c_pipe c) ch (c_dd c) (sw_closed c) (sw_window c) (once_done c) (removes c).
Definition set_dd (d : DelayDo) (c : Conn) : Conn :=
  mkConn (c_pipe c) (c_chan c) d (sw_closed c) (sw_window c) (once_done c) (removes c).

(** Modelled from the spec: [SeqWriter.Close] (the sender's [sendFin],
    not in conn.go). It is idempotent: the first call closes the send side
    and succeeds, a repeated call reports the distinguished "already
    closed" condition, which the code compares with [io.EOF]. *)
Definition sw_Close (c : Conn) : Conn * error :=
  if sw_closed c then (c, Some EOF)
  else (mkConn (c_pipe c) (c_chan c) (c_dd c) true (sw_window c) (once_done c) (removes c),
        None).

(** Modelled from the spec: [SeqWriter.Release] (the sender's
    [applyWindowCredit], not in conn.go) adds the credit to the window. *)
Definition sw_Release (w : N) (c : Conn) : Conn :=
  mkConn (c_pipe c) (c_chan c) (c_dd c) (sw_closed c) (sw_window c + w)
    (once_done c) (removes c).

(** [func (c *Conn) remove_port()]: [c.removefunc.Do(...)] runs its body
    once: [c.sess.RemovePorts(c.streamid)] (its error is only logged) and
    [c.ChanFrameSender.CloseSend()]. *)
Definition remove_port (c : Conn) : Conn :=
  if once_done c then c
  else mkConn (c_pipe c) (CloseSend (c_chan c)) (c_dd c) (sw_closed c)
         (sw_window c) true (S (removes c)).

(** [func (c *Conn) Close() (err error)], split at its only read of state
    another goroutine writes: first [c.sw.Close] and the [io.EOF]
    normalisation, then the test of [c.Pipe.Closed]. *)
Definition close_part1 (c : Conn) : Conn * error :=
  let '(c, err) := sw_Close c in
  let err := if decide (err = Some EOF) then None else err in
  (c, err).

Definition close_part2 (err : error) (c : Conn) : Conn :=
  match err with
  | Some _ => c
  | None => if Closed (c_pipe c) then remove_port c else c
  end.

Definition Conn_Close (c : Conn) : Conn * error :=
  let '(c, err) := close_part1 c in
  (close_part2 err c, err).

(** [case *FrameFin:] of [Run], in the same two parts: [c.Pipe.Close()],
    then [if c.sw.Closed() { c.remove_port() }]. *)
Definition fin_part1 (c : Conn) : Conn := set_pipe (fst (Pipe_Close (c_pipe c))) c.

Definition fin_part2 (c : Conn) : Conn :=
  if sw_closed c then remove_port c else c.

(** [func (c *Conn) CloseAll()]: [c.sw.Close] (result ignored),
    [c.Pipe.Close()], [c.remove_port()]. *)
Definition closeall_part1 (c : Conn) : Conn := fst (sw_Close c).
Definition closeall_part2 (c : Conn) : Conn := set_pipe (fst (Pipe_Close (c_pipe c))) c.

Definition CloseAll (c : Conn) : Conn :=
  remove_port (closeall_part2 (closeall_part1 c)).

(** [func (c *Conn) send_ack(n int) (err error)]: [sw_Ack] is the result
    of [c.sw.Ack(c.streamid, int32(n))] (the session's sender); on an
    error the connection is closed with [c.Close()] and the error is
    returned. *)
Definition send_ack (sw_Ack : error) (c : Conn) : Conn * error :=
  match sw_Ack with
  | Some e => (fst (Conn_Close c), Some e)
  | None => (c, None)
  end.

(** [c.dd.Add()] with [c.dd.do = c.send_ack] (set in [NewConn]): when
    [Add] calls [do(n)] (while holding [d.lock]), [c.send_ack(n)] runs.
    [sw_Ack i n] is the result of [c.sw.Ack] for the [i]-th ack (counting
    from 0), of [n]. *)
Definition conn_dd_Add (WIN_SIZE : nat) (sw_Ack : nat -> nat -> error) (c : Conn) : Conn :=
  let d := c_dd c in
  let d' := Add WIN_SIZE d in
  let c' := set_dd d' c in
  match drop (length (dd_log d)) (dd_log d') with
  | [n] => fst (send_ack (sw_Ack (length (dd_log d)) n) c')
  | _ => c'
  end.

(** One iteration of the [for] loop of [Run] after the receive: [None] is
    a receive on the closed, drained channel ([!ok]). The boolean result
    is [true] when the loop [return]s. [WIN_SIZE] is the batcher's
    threshold, [sw_Ack] the results of the acks it sends; [rendezvous]
    decides [p.pw.Write] while the pipe is open: the write completes with
    that result (a write that waits for a reader is not modelled). *)
Definition run_recv (WIN_SIZE : nat) (sw_Ack : nat -> nat -> error)
    (rendezvous : list Byte.byte -> nat * error)
    (it : option Frame) (c : Conn) : Conn * bool :=
  match it with
  | None => (CloseAll c, true)
  | Some f =>
      match f with
      | FrameData _ data =>
          let c := conn_dd_Add WIN_SIZE sw_Ack c in
          let '(_, err) := Pipe_Write (io_pipe_write (c_pipe c) rendezvous) data in
          match err with
          | Some EOF => (CloseAll c, true)
          | None => (c, false)
          | Some _ => (CloseAll c, true)
          end
      | FrameAck _ w => (sw_Release w c, false)
      | FrameFin _ =>
          let c := fin_part1 c in
          let c := fin_part2 c in
          (c, true)
      | FrameOther _ => (CloseAll c, true)
      end
  end.

(** [f, ok := <-c.ChanFrameSender]: [None] when the receive blocks
    (empty and open channel). *)
Definition chan_recv (ch : ChanFrameSender) : option (option Frame * ChanFrameSender) :=
  match ch_buf ch with
  | f :: rest => Some (Some f, mkChan (ch_cap ch) rest (ch_closed ch))
  | [] => if ch_closed ch then Some (None, ch) else None
  end.

(** [func (c *Conn) Run()] on the frames currently in the channel: the
    result is the state and whether the loop returned ([false]: it is
    blocked in the receive). *)
Fixpoint run_loop (fuel WIN_SIZE : nat) (sw_Ack : nat -> nat -> error)
    (rendezvous : list Byte.byte -> nat * error) (c : Conn) : Conn * bool :=
  match fuel with
  | O => (c, false)
  | S fuel' =>
      match chan_recv (c_chan c) with
      | None => (c, false)
      | Some (it, ch) =>
          let '(c', ret) := run_recv WIN_SIZE sw_Ack rendezvous it (set_chan ch c) in
          if ret then (c', true) else run_loop fuel' WIN_SIZE sw_Ack rendezvous c'
      end
  end.

Definition Run (WIN_SIZE : nat) (sw_Ack : nat -> nat -> error)
    (rendezvous : list Byte.byte -> nat * error) (c : Conn) : Conn * bool :=
  run_loop (S (length (ch_buf (c_chan c)))) WIN_SIZE sw_Ack rendezvous c.

(** A reader that takes every write whole. *)
Definition reader_takes_all (data : list Byte.byte) : nat * error := (length data, None).

(** [NewConn] after the session delivered [fs] with [SendFrame]. *)
Definition conn_with_frames (CHANLEN : nat) (fs : list Frame) : Conn :=
  set_chan (mkChan CHANLEN fs false) (NewConn CHANLEN).

(** *** Concurrent closing paths

    The goroutines that reach [remove_port]: the application's [Close],
    the dispatch loop's [FrameFin] branch and [CloseAll]. Each is a small
    program whose steps are the atomic parts above; [pc] counts the steps
    done ([TClose] also keeps its local [err]). *)
Inductive Thread :=
| TClose (pc : nat) (err : error)
| TFin (pc : nat)
| TCloseAll (pc : nat).

Definition thread_step (c : Conn) (th : Thread) : Conn * Thread :=
  match th with
  | TClose 0 _ => let '(c', err) := close_part1 c in (c', TClose 1 err)
  | TClose 1 err => (close_part2 err c, TClose 2 err)
  | TFin 0 => (fin_part1 c, TFin 1)
  | TFin 1 => (fin_part2 c, TFin 2)
  | TCloseAll 0 => (closeall_part1 c, TCloseAll 1)
  | TCloseAll 1 => (closeall_part2 c, TCloseAll 2)
  | TCloseAll 2 => (remove_port c, TCloseAll 3)
  | _ => (c, th)
  end.

(** Runs a schedule: each entry names the thread that takes the next
    step. *)
Fixpoint sched_run (c : Conn) (ts : list Thread) (sched : list nat) : Conn * list Thread :=
  match sched with
  | [] => (c, ts)
  | i :: sched' =>
      match ts !! i with
      | Some th => let '(c', th') := thread_step c th in sched_run c' (<[i:=th']> ts) sched'
      | None => sched_run c ts sched'
      end
  end.

Definition thread_fresh (th : Thread) : Prop :=
  match th with
  | TClose pc err => pc = 0 /\ err = None
  | TFin pc => pc = 0
  | TCloseAll pc => pc = 0
  end.

(* ------------------------------------------------------------------ *)
(** ** Reading the pipe, addresses *)

(** [io.PipeReader.Read] of the standard library: after the read end is
    closed the read fails with [io.ErrClosedPipe]; after the write end is
    closed (with a nil error) it reports [io.EOF]; otherwise the rendezvous
    with a writer decides the result. *)
Definition io_pipe_read (p : Pipe) (rendezvous : list Byte.byte -> nat * error)
    (data : list Byte.byte) : nat * error :=
  if pr_closed p then (0, Some ErrClosedPipe)
  else if pw_closed p then (0, Some EOF)
  else rendezvous data.

(** [type Addr struct { net.Addr; streamid uint16 }]: the embedded address
    is represented by its [String()]. *)
Record Addr := mkAddr {
  addr_string : String.string;
  streamid : N
}.

(** [func (a *Addr) String() (s string)]:
    [fmt.Sprintf("%s(%d)", a.Addr.String(), a.streamid)], [%d] printing
    the decimal digits of the number. *)
#[local] Open Scope string_scope.
Definition Addr_String (a : Addr) : String.string :=
  String.append (addr_string a)
    (String.append ("(" : String.string)
       (String.append (DecimalString.NilZero.string_of_uint (N.to_uint (streamid a)))
          (")" : String.string))).

#[local] Close Scope string_scope.

(** [func (c *Conn) LocalAddr() net.Addr] and [RemoteAddr]: the session's
    address (given by its [String()]) tagged with the stream id. *)
Definition Conn_LocalAddr (sess_local : String.string) (sid : N) : Addr := mkAddr sess_local sid.
Definition Conn_RemoteAddr (sess_remote : String.string) (sid : N) : Addr := mkAddr sess_remote sid.

(** [func (c ChanFrameSender) RecvWithTimeout(t time.Duration) (f Frame)]:
    a [select] between a receive and the timer of [time.After(t)]. When
    the channel is not ready (empty and open) the timer fires and [nil]
    ([None]) is returned. When it is ready, the receive gives the oldest
    frame, or [nil] on a closed and drained channel; [timeout_wins] is the
    choice [select] makes when the timer has fired as well. *)
Definition RecvWithTimeout (c : ChanFrameSender) (timeout_wins : bool)
    : option Frame * ChanFrameSender :=
  match chan_recv c with
  | Some (it, c') => if timeout_wins then (None, c) else (it, c')
  | None => (None, c)
  end.


(* ================================================================== *)
(** * Properties *)

(* ------------------------------------------------------------------ *)
(** ** Pipe *)

(** C7: whatever the underlying [io.Pipe] operation returns, [Pipe.Read]
    and [Pipe.Write] never return [io.ErrClosedPipe]; a closed-pipe
    result of the underlying operation comes out as [io.EOF], exactly as
    an end-of-stream result does, so the two cannot be told apart. *)
Theorem Pipe_Read_Write_closed_is_EOF :
  forall (pr_read pw_write : list Byte.byte -> nat * error) (data : list Byte.byte) (n : nat),
    snd (Pipe_Read pr_read data) <> Some ErrClosedPipe /\
    snd (Pipe_Write pw_write data) <> Some ErrClosedPipe /\
    Pipe_Read (fun _ => (n, Some ErrClosedPipe)) data = (n, Some EOF) /\
    Pipe_Write (fun _ => (n, Some ErrClosedPipe)) data = (n, Some EOF) /\
    Pipe_Read (fun _ => (n, Some ErrClosedPipe)) data = Pipe_Read (fun _ => (n, Some EOF)) data /\
    Pipe_Write (fun _ => (n, Some ErrClosedPipe)) data = Pipe_Write (fun _ => (n, Some EOF)) data.
Proof.
  intros pr_read pw_write data n.
  unfold Pipe_Read, Pipe_Write.
  destruct (pr_read data) as [n1 e1], (pw_write data) as [n2 e2]; simpl.
  repeat split;
    repeat match goal with
           | |- context [decide ?P] => destruct (decide P)
           end; simpl; congruence.
Qed.

(** C10: [Pipe.Close] returns nil on every call, repeated calls included,
    and leaves [Closed] set and both ends closed. *)
Theorem Pipe_Close_nil_and_closed :
  forall p : Pipe,
    snd (Pipe_Close p) = None /\
    Closed (fst (Pipe_Close p)) = true /\
    pr_closed (fst (Pipe_Close p)) = true /\
    pw_closed (fst (Pipe_Close p)) = true /\
    snd (Pipe_Close (fst (Pipe_Close p))) = None /\
    fst (Pipe_Close (fst (Pipe_Close p))) = fst (Pipe_Close p).
Proof. intros [cl r w]; repeat split. Qed.

(* ------------------------------------------------------------------ *)
(** ** ChanFrameSender *)

(** C8 (as the code does it): [SendFrame] never blocks. On a closed
    channel, or when no receiver is waiting and the buffer is full, it
    returns false and leaves the channel as it was (the frame is dropped).
    It returns true exactly when the frame was appended to the buffer or
    handed to a waiting receiver. *)
Theorem SendFrame_drop_or_deliver :
  forall (c : ChanFrameSender) (receiver_waiting : bool) (f : Frame),
    let '(b, c', handed) := SendFrame c receiver_waiting f in
    ((ch_closed c = true \/ (receiver_waiting = false /\ ch_cap c <= length (ch_buf c))) <->
       b = false) /\
    (b = false -> c' = c /\ handed = None) /\
    (b = true <->
       (c' = c /\ handed = Some f) \/
       (handed = None /\ c' = mkChan (ch_cap c) (ch_buf c ++ [f]) (ch_closed c))).
Proof.
  intros [cap buf cl] rw f. unfold SendFrame; simpl.
  destruct cl; simpl.
  - split; [split; [reflexivity | intros _; left; reflexivity]|].
    split; [intros _; split; reflexivity|].
    split; [discriminate|]. intros [[_ H]|[_ H]]; [discriminate|].
    injection H as H. apply (f_equal length) in H. rewrite length_app in H. simpl in H. lia.
  - destruct rw; simpl.
    + split; [split; [intros [H|[H _]]; discriminate | discriminate]|].
      split; [discriminate|]. split; [intros _; left; split; reflexivity | reflexivity].
    + destruct (length buf <? cap) eqn:E.
      * apply Nat.ltb_lt in E.
        split; [split; [intros [H|[_ H]]; [discriminate | lia] | discriminate]|].
        split; [discriminate|]. split; [intros _; right; split; reflexivity | reflexivity].
      * apply Nat.ltb_ge in E.
        split; [split; [reflexivity | intros _; right; split; [reflexivity | exact E]]|].
        split; [intros _; split; reflexivity|].
        split; [discriminate|]. intros [[_ H]|[_ H]]; [discriminate|].
    injection H as H. apply (f_equal length) in H. rewrite length_app in H. simpl in H. lia.
Qed.

(** C8 as stated is refuted: an unbuffered inbox (capacity 0) is always
    full, yet a send succeeds, handing the frame to the dispatch loop
    waiting in its receive. *)
Lemma SendFrame_unbuffered_cex :
  ch_cap (NewChanFrameSender 0) <= length (ch_buf (NewChanFrameSender 0)) /\
  SendFrame (NewChanFrameSender 0) true (FrameFin 7) =
    (true, NewChanFrameSender 0, Some (FrameFin 7)).
Proof. split; [simpl; lia | reflexivity]. Qed.

(* ------------------------------------------------------------------ *)
(** ** Conn.Write on an empty payload *)

(** C9: [Conn.Write] of an empty slice returns [(0, nil)] and hands no
    chunk to [c.sw.Data], whatever the sender and the random source. *)
Theorem Conn_Write_empty :
  forall (rand_Intn : nat -> nat) (sw_Data : nat -> list Byte.byte -> error),
    Conn_Write rand_Intn sw_Data [] = Some (0, None, []).
Proof. reflexivity. Qed.

(* ------------------------------------------------------------------ *)
(** ** Conn.Write chunking *)

Lemma chunk_size_facts :
  forall len r, r < 1024 -> 0 < len ->
    1 <= chunk_size len r <= len /\ policy_size_ok len (chunk_size len r).
Proof.
  intros len r Hr Hlen. unfold chunk_size, policy_size_ok.
  destruct (8 * 1024 <? len) eqn:E1.
  - apply Nat.ltb_lt in E1. repeat split; lia.
  - apply Nat.ltb_ge in E1.
    destruct (4 * 1024 <? len) eqn:E2, (len <=? 8 * 1024) eqn:E3; cbn [andb];
      rewrite ?Nat.ltb_lt, ?Nat.ltb_ge, ?Nat.leb_le, ?Nat.leb_gt in *.
    + assert (len / 2 <= len) by (apply Nat.Div0.div_le_upper_bound; lia).
      assert (1 <= len / 2) by (apply Nat.div_le_lower_bound; lia).
      repeat split; lia.
    + lia.
    + repeat split; lia.
    + repeat split; lia.
Qed.

Lemma sum_list_app : forall l1 l2, sum_list (l1 ++ l2) = sum_list l1 + sum_list l2.
Proof. induction l1; intros; simpl; [reflexivity | rewrite IHl1; lia]. Qed.

(** The loop stops with nothing sent. *)
Ltac write_loop_stop :=
  split; [exact I|];
  split; [exists []; reflexivity|];
  split;
  [ intros _; split; [reflexivity|]; split; [lia|];
    intros i ch H; rewrite lookup_nil in H; discriminate
  | intros e H; discriminate ].

Lemma uint32_small : forall x, (N.of_nat x < 2 ^ 32)%N -> uint32 x = x.
Proof. intros x H. unfold uint32. rewrite N.mod_small by exact H. apply Nat2N.id. Qed.

Section WriteProofs.
Variable rand_Intn : nat -> nat.
Variable sw_Data : nat -> list Byte.byte -> error.

(** One iteration of the loop on a non-empty payload. *)
Lemma write_loop_cons :
  forall fuel k b bs n,
    write_loop rand_Intn sw_Data (S fuel) k (b :: bs) n =
      let size := chunk_size (uint32 (length (b :: bs))) (rand_Intn k) in
      match sw_Data k (take size (b :: bs)) with
      | Some e => Some (n, Some e, [take size (b :: bs)])
      | None =>
          match write_loop rand_Intn sw_Data fuel (S k) (drop size (b :: bs)) (n + size) with
          | Some (n', err, sent) => Some (n', err, take size (b :: bs) :: sent)
          | None => None
          end
      end.
Proof. reflexivity. Qed.



Hypothesis rand_bound : forall k, rand_Intn k < 1024.

(** The loop invariant of [Conn.Write] for a payload of fewer than 2^32
    bytes: from chunk index [k] and count [n], the loop ends within
    [len(data)] iterations; what it hands to the sender and returns. *)
Lemma write_loop_spec :
  forall fuel k data n, length data <= fuel -> (N.of_nat (length data) < 2 ^ 32)%N ->
    match write_loop rand_Intn sw_Data fuel k data n with
    | None => False
    | Some (n', err, sent) =>
    chunks_follow_policy data sent /\
    (exists rest, data = concat sent ++ rest) /\
    (err = None ->
       concat sent = data /\ n' = n + length data /\
       forall i ch, sent !! i = Some ch -> sw_Data (k + i) ch = None) /\
    (forall e, err = Some e ->
       exists pre last, sent = pre ++ [last] /\
         n' = n + sum_list (map length pre) /\
         sw_Data (k + length pre) last = Some e /\
         forall i ch, pre !! i = Some ch -> sw_Data (k + i) ch = None)
    end.
Proof.
  induction fuel as [|fuel IH]; intros k data n Hf Hb.
  - destruct data; [|simpl in Hf; lia]. simpl. write_loop_stop.
  - destruct data as [|b bs].
    { simpl. write_loop_stop. }
    rewrite write_loop_cons. cbv zeta.
    set (data := b :: bs) in *.
    rewrite (uint32_small _ Hb).
    assert (Hne : 0 < length data) by (simpl; lia).
    destruct (chunk_size_facts (length data) (rand_Intn k) (rand_bound k) Hne) as [[Hs1 Hs2] Hpol].
    set (size := chunk_size (length data) (rand_Intn k)) in *.
    assert (Htake : length (take size data) = size) by (rewrite length_take; lia).
    assert (Hsplit : data = take size data ++ drop size data) by (symmetry; apply take_drop).
    destruct (sw_Data k (take size data)) as [e|] eqn:Hsend.
    + (* the sender fails on this chunk *)
      simpl. change (S (length bs)) with (length data) in *. rewrite Htake.
      refine (conj (conj Hpol (conj eq_refl I)) (conj _ (conj _ _))).
      * exists (drop size data). rewrite app_nil_r. exact Hsplit.
      * discriminate.
      * intros e' He'. injection He' as <-.
        exists [], (take size data).
        refine (conj eq_refl (conj _ (conj _ _))).
        -- simpl. lia.
        -- simpl. rewrite Nat.add_0_r. exact Hsend.
        -- intros i ch H. rewrite lookup_nil in H. discriminate.
    + assert (Hlen : length (drop size data) <= fuel)
        by (rewrite length_drop; simpl in Hf |- *; lia).
      assert (Hb' : (N.of_nat (length (drop size data)) < 2 ^ 32)%N)
        by (rewrite length_drop; lia).
      specialize (IH (S k) (drop size data) (n + size) Hlen Hb').
      destruct (write_loop rand_Intn sw_Data fuel (S k) (drop size data) (n + size))
        as [[[n' err] sent]|] eqn:Hrec; [|contradiction].
      destruct IH as (Hpolr & [rest Hrest] & Hok & Hfail).
      simpl. change (S (length bs)) with (length data) in *. rewrite Htake.
      refine (conj (conj Hpol (conj eq_refl Hpolr)) (conj _ (conj _ _))).
      * exists rest. rewrite <- app_assoc, <- Hrest. exact Hsplit.
      * intros Herr. destruct (Hok Herr) as (Hc & Hn & Hall).
        split; [|split].
        -- rewrite Hc. symmetry. exact Hsplit.
        -- rewrite Hn, length_drop. lia.
        -- intros i ch H. destruct i as [|i]; simpl in H.
           ++ injection H as <-. rewrite Nat.add_0_r. exact Hsend.
           ++ replace (k + S i) with (S k + i) by lia. apply Hall. exact H.
      * intros e He. destruct (Hfail e He) as (pre & last & Hs & Hn & Hl & Hall).
        exists (take size data :: pre), last.
        refine (conj _ (conj _ (conj _ _))).
        -- rewrite Hs. reflexivity.
        -- simpl. rewrite Htake, Hn. lia.
        -- simpl. replace (k + S (length pre)) with (S k + length pre) by lia. exact Hl.
        -- intros i ch H. destruct i as [|i]; simpl in H.
           ++ injection H as <-. rewrite Nat.add_0_r. exact Hsend.
           ++ replace (k + S i) with (S k + i) by lia. apply Hall. exact H.
Qed.
End WriteProofs.




(* ------------------------------------------------------------------ *)
(** ** DelayDo *)

Lemma sum_list_snoc : forall l x, sum_list (l ++ [x]) = sum_list l + x.
Proof. intros. rewrite sum_list_app. simpl. lia. Qed.

(** What one locked step does to the count, the log and [d.timer]: the
    pending count stays below the threshold, every [d.do] argument is at
    most the threshold, the flushed and the pending adds together grow by
    one on [Add] only, and [d.timer] is set exactly when the count is
    positive. *)
Definition dd_inv (W : nat) (d : DelayDo) : Prop :=
  dd_cnt d < W /\ (dd_timer d <> None <-> 0 < dd_cnt d).

Lemma dd_event_step :
  forall W e d d', 1 <= W -> dd_event W e d = Some d' -> dd_inv W d ->
    dd_inv W d' /\
    sum_list (dd_log d') + dd_cnt d' =
      sum_list (dd_log d) + dd_cnt d + (match e with EvAdd => 1 | _ => 0 end) /\
    (Forall (fun x => x <= W) (dd_log d) -> Forall (fun x => x <= W) (dd_log d')).
Proof.
  intros W e [c t a l nx lg] d' HW Hev [Hlt Htm]; simpl in Hlt, Htm.
  destruct e as [|u|u]; simpl in Hev.
  - injection Hev as <-. unfold Add, set_cnt, set_timer, call_do, timer_Stop, AfterFunc.
    simpl. destruct (W <=? c + 1) eqn:E.
    + apply Nat.leb_le in E.
      assert (c + 1 = W) by lia.
      destruct t; simpl; unfold dd_inv; simpl.
      all: split; [split; [lia | split; [congruence | lia]] |].
      all: split; [rewrite sum_list_snoc; lia |].
      all: intros HF; apply Forall_app; split; [exact HF |].
      all: constructor; [lia | constructor].
    + apply Nat.leb_gt in E.
      destruct t; simpl.
      all: replace (c + 1 =? 0) with false by (symmetry; apply Nat.eqb_neq; lia).
      all: simpl; unfold dd_inv; simpl.
      all: split; [split; [lia | split; [intros _; lia | congruence]] |].
      all: split; [lia | tauto].
  - destruct (mem_id u a); [|discriminate]. injection Hev as <-.
    unfold dd_inv; simpl. split; [tauto | split; [lia | tauto]].
  - destruct (mem_id u l); [|discriminate]. injection Hev as <-.
    unfold timer_callback, set_cnt, set_timer, call_do; simpl.
    destruct (0 <? c) eqn:E; simpl; unfold dd_inv; simpl.
    + split; [split; [lia | split; [congruence | lia]] |].
      split; [rewrite sum_list_snoc; lia |].
      intros HF. apply Forall_app; split; [exact HF | constructor; [lia | constructor]].
    + apply Nat.ltb_ge in E.
      split; [split; [lia | split; [congruence | lia]] |].
      split; [lia | tauto].
Qed.

Lemma dd_run_inv :
  forall W es d d', 1 <= W -> dd_run W es d = Some d' -> dd_inv W d ->
    dd_inv W d' /\
    sum_list (dd_log d') + dd_cnt d' = sum_list (dd_log d) + dd_cnt d + count_adds es /\
    (Forall (fun x => x <= W) (dd_log d) -> Forall (fun x => x <= W) (dd_log d')).
Proof.
  intros W es. induction es as [|e es IH]; intros d d' HW Hrun Hinv; simpl in Hrun.
  - injection Hrun as <-. unfold count_adds; simpl. split; [exact Hinv|]. split; [lia | tauto].
  - destruct (dd_event W e d) as [d1|] eqn:Hev; [|discriminate].
    destruct (dd_event_step W e d d1 HW Hev Hinv) as (Hinv1 & Hsum1 & Hb1).
    destruct (IH d1 d' HW Hrun Hinv1) as (Hinv2 & Hsum2 & Hb2).
    split; [exact Hinv2|]. split.
    + rewrite Hsum2, Hsum1. unfold count_adds; destruct e; simpl; lia.
    + tauto.
Qed.

Lemma NewDelayDo_inv : forall W, 1 <= W -> dd_inv W NewDelayDo.
Proof. intros W HW. unfold dd_inv; simpl. split; [lia | split; [congruence | lia]]. Qed.

(** The field [d.timer] is set in every reachable state exactly when the
    pending count is positive (and it is always below the threshold). *)
Lemma DelayDo_timer_field_invariant :
  forall W es d, 1 <= W -> dd_run W es NewDelayDo = Some d ->
    (dd_timer d <> None <-> 0 < dd_cnt d < W).
Proof.
  intros W es d HW Hrun.
  destruct (dd_run_inv W es NewDelayDo d HW Hrun (NewDelayDo_inv W HW)) as ([Hlt Htm] & _ & _).
  rewrite Htm. lia.
Qed.

(** C5: for a positive threshold and any sequence of [Add] calls, timer
    expiries and callbacks, the arguments of all [d.do] calls plus the
    pending count add up to the number of [Add] calls (so with nothing
    pending they add up to it exactly), and no argument exceeds the
    threshold. *)
Theorem DelayDo_sum_and_bound :
  forall (WIN_SIZE : nat) (es : list DDEvent) (d : DelayDo),
    1 <= WIN_SIZE ->
    dd_run WIN_SIZE es NewDelayDo = Some d ->
    sum_list (dd_log d) + dd_cnt d = count_adds es /\
    (dd_cnt d = 0 -> sum_list (dd_log d) = count_adds es) /\
    Forall (fun x => x <= WIN_SIZE) (dd_log d).
Proof.
  intros W es d HW Hrun.
  destruct (dd_run_inv W es NewDelayDo d HW Hrun (NewDelayDo_inv W HW)) as (_ & Hsum & Hb).
  simpl in Hsum. split; [lia|]. split; [lia|]. apply Hb. constructor.
Qed.

Lemma DelayDo_sum_and_bound_witness :
  1 <= 2 /\ dd_run 2 [EvAdd; EvExpire 0; EvAdd; EvAdd; EvCallback 0] NewDelayDo =
            Some (mkDelayDo 0 None [1] [] 2 [2; 1]) /\
  sum_list [2; 1] + 0 = count_adds [EvAdd; EvExpire 0; EvAdd; EvAdd; EvCallback 0].
Proof.
  split; [lia|]. split; [reflexivity|].
  exact (proj1 (DelayDo_sum_and_bound 2 [EvAdd; EvExpire 0; EvAdd; EvAdd; EvCallback 0]
                  (mkDelayDo 0 None [1] [] 2 [2; 1]) (ltac:(lia) : 1 <= 2) eq_refl)).
Defined.

(** C6: a timer still armed while nothing is pending. With threshold 2:
    [Add] starts timer 0; timer 0 expires and its callback waits for the
    lock; the next [Add] reaches the threshold, calls [d.do(2)] and
    [Stop]s timer 0, which no longer has an effect; the next [Add] starts
    timer 1; then the waiting callback of timer 0 runs, calls [d.do(1)],
    and clears [d.timer] and the count. Timer 1 is armed with a count of
    0 and [d.timer] no longer refers to it. The same happens with
    threshold 30. *)
Theorem DelayDo_orphan_timer :
  dd_run 2 [EvAdd; EvExpire 0; EvAdd; EvAdd; EvCallback 0] NewDelayDo =
    Some (mkDelayDo 0 None [1] [] 2 [2; 1]) /\
  (exists d, dd_run 30 ([EvAdd; EvExpire 0] ++ repeat EvAdd 29 ++ [EvAdd; EvCallback 0])
               NewDelayDo = Some d /\
             dd_armed d = [1] /\ dd_cnt d = 0 /\ dd_timer d = None).
Proof.
  split; [reflexivity|].
  eexists. split; [vm_compute; reflexivity|]. vm_compute. repeat split.
Qed.

(* ------------------------------------------------------------------ *)
(** ** The dispatch loop on Data and Fin frames *)

Lemma CloseAll_dd : forall c, c_dd (CloseAll c) = c_dd c.
Proof.
  intros [p ch d sc w od r].
  unfold CloseAll, closeall_part1, closeall_part2, sw_Close, remove_port, set_pipe.
  destruct sc, od; reflexivity.
Qed.

(** [c.dd.Add()] together with the ack it may send: the batcher becomes
    [Add]'s result, and a failing ack runs [Close], which keeps the pipe,
    the buffered frames and the batcher, and only sets flags. *)
Lemma conn_dd_Add_facts :
  forall W sw_Ack c,
    let c' := conn_dd_Add W sw_Ack c in
    c_dd c' = Add W (c_dd c) /\ c_pipe c' = c_pipe c /\
    ch_buf (c_chan c') = ch_buf (c_chan c) /\ ch_cap (c_chan c') = ch_cap (c_chan c) /\
    (ch_closed (c_chan c) = true -> ch_closed (c_chan c') = true) /\
    (sw_closed c = true -> sw_closed c' = true) /\
    (once_done c = true -> once_done c' = true).
Proof.
  intros W sa [[pc pr pw] [cap buf cl] d sc w od r]. cbv zeta.
  unfold conn_dd_Add. simpl.
  destruct (drop (length (dd_log d)) (dd_log (Add W d))) as [|n [|m l]];
    [simpl; repeat split; tauto | | simpl; repeat split; tauto].
  unfold send_ack. destruct (sa (length (dd_log d)) n); [|simpl; repeat split; tauto].
  unfold Conn_Close, close_part1, close_part2, sw_Close, remove_port, set_dd.
  destruct sc, od, pc; simpl; repeat split; intros; first [reflexivity | assumption].
Qed.

(** [Add] calls [d.do] once, with the new count, exactly when the count
    reaches [WIN_SIZE]; the timer's callback is not part of [Add]. *)
Lemma Add_log :
  forall W d, dd_log (Add W d) =
    if W <=? dd_cnt d + 1 then dd_log d ++ [dd_cnt d + 1] else dd_log d.
Proof.
  intros W [cnt t a l nx lg]. unfold Add, set_cnt, call_do, set_timer, timer_Stop, AfterFunc.
  cbn [dd_cnt dd_timer dd_armed dd_launched dd_next dd_log].
  destruct (W <=? cnt + 1); [destruct t|]; cbn [dd_cnt dd_timer dd_log];
    repeat match goal with |- context [if ?b then _ else _] => destruct b end; reflexivity.
Qed.

(** C1 (as the code does it): each [Data] frame makes [Run] call
    [c.dd.Add()] once, whatever the payload size: the batcher counts
    frames, one per frame, not bytes. So with threshold 30 and no timer
    expiry, frames of 10, 20 and 5 bytes leave a pending count of 3 and
    no ack. *)
Theorem Run_Data_adds_once_per_frame :
  forall (WIN_SIZE : nat) (sw_Ack : nat -> nat -> error)
         (rendezvous : list Byte.byte -> nat * error) (c : Conn)
         (sid : N) (data : list Byte.byte),
    c_dd (fst (run_recv WIN_SIZE sw_Ack rendezvous (Some (FrameData sid data)) c)) =
      Add WIN_SIZE (c_dd c) /\
    dd_cnt (Add WIN_SIZE (c_dd c)) =
      (if WIN_SIZE <=? S (dd_cnt (c_dd c)) then 0 else S (dd_cnt (c_dd c))) /\
    dd_log (Add WIN_SIZE (c_dd c)) =
      dd_log (c_dd c) ++
        (if WIN_SIZE <=? S (dd_cnt (c_dd c)) then [S (dd_cnt (c_dd c))] else []) /\
    (let c3 := fst (Run 30 sw_Ack reader_takes_all
                      (conn_with_frames 8 [FrameData 7 (repeat Byte.x00 10);
                                           FrameData 7 (repeat Byte.x00 20);
                                           FrameData 7 (repeat Byte.x00 5)])) in
     dd_log (c_dd c3) = [] /\ dd_cnt (c_dd c3) = 3).
Proof.
  intros W sa rv c sid data. split; [|split; [|split]].
  - unfold run_recv.
    destruct (Pipe_Write _ data) as [n err].
    destruct (conn_dd_Add_facts W sa c) as [Hd _].
    destruct err as [[| |k]|]; simpl; rewrite ?CloseAll_dd; exact Hd.
  - destruct (c_dd c) as [cn t a l nx lg].
    unfold Add, set_cnt, set_timer, call_do, timer_Stop, AfterFunc; simpl.
    rewrite Nat.add_1_r.
    destruct (W <=? S cn); [destruct t|]; simpl; [reflexivity | reflexivity |].
    destruct t; reflexivity.
  - destruct (c_dd c) as [cn t a l nx lg].
    unfold Add, set_cnt, set_timer, call_do, timer_Stop, AfterFunc; simpl.
    rewrite Nat.add_1_r.
    destruct (W <=? S cn); [destruct t|]; simpl; [reflexivity | reflexivity |].
    destruct t; simpl; rewrite app_nil_r; reflexivity.
  - vm_compute. split; reflexivity.
Qed.

(** C1 as stated is refuted: after the first two frames (10 and 20
    bytes, threshold 30) no ack of 30 has been sent. *)
Lemma Run_Data_ack_30_cex :
  dd_log (c_dd (fst (Run 30 (fun _ _ => None) reader_takes_all
                       (conn_with_frames 8 [FrameData 7 (repeat Byte.x00 10);
                                            FrameData 7 (repeat Byte.x00 20)])))) <> [30].
Proof. vm_compute. intros H. discriminate H. Qed.

(** C2 (as the code does it): on a [Fin] frame [Run] closes the pipe,
    finishes the removal when the send side is already closed, and
    returns in every case, so the loop ends even when the stream is only
    half closed. *)
Theorem Run_Fin_always_returns :
  forall (WIN_SIZE : nat) (sw_Ack : nat -> nat -> error)
         (rendezvous : list Byte.byte -> nat * error) (c : Conn) (sid : N),
    let '(c', ret) := run_recv WIN_SIZE sw_Ack rendezvous (Some (FrameFin sid)) c in
    ret = true /\
    Closed (c_pipe c') = true /\ pr_closed (c_pipe c') = true /\ pw_closed (c_pipe c') = true /\
    once_done c' = once_done c || sw_closed c /\
    removes c' = (if sw_closed c && negb (once_done c) then S (removes c) else removes c) /\
    sw_closed c' = sw_closed c.
Proof.
  intros W sa rv [p ch d sc w od r] sid.
  unfold run_recv, fin_part1, fin_part2, set_pipe, remove_port; simpl.
  destruct sc, od; simpl; repeat split.
Qed.

(** C2 as stated is refuted: with the send side open, a [Fin] followed by
    an [Ack] ends the loop at the [Fin]; the [Ack] stays in the channel
    and its credit is never applied. *)
Lemma Run_Fin_half_closed_cex :
  sw_closed (conn_with_frames 8 [FrameFin 7; FrameAck 7 5]) = false /\
  snd (Run 30 (fun _ _ => None) reader_takes_all (conn_with_frames 8 [FrameFin 7; FrameAck 7 5])) = true /\
  ch_buf (c_chan (fst (Run 30 (fun _ _ => None) reader_takes_all (conn_with_frames 8 [FrameFin 7; FrameAck 7 5])))) =
    [FrameAck 7 5] /\
  sw_window (fst (Run 30 (fun _ _ => None) reader_takes_all (conn_with_frames 8 [FrameFin 7; FrameAck 7 5]))) = 0%N.
Proof. vm_compute. repeat split. Qed.

(* ------------------------------------------------------------------ *)
(** ** Exactly-once removal *)

(** What holds in every state reached by running [Close], [Fin] and
    [CloseAll] threads from fresh threads on a fresh connection. *)
Definition close_inv (c : Conn) (ts : list Thread) : Prop :=
  removes c = (if once_done c then 1 else 0) /\
  (forall i pc err, ts !! i = Some (TClose pc err) -> 1 <= pc ->
     sw_closed c = true /\ err = None) /\
  (forall j pc, ts !! j = Some (TFin pc) -> 1 <= pc -> Closed (c_pipe c) = true) /\
  (forall i j err, ts !! i = Some (TClose 2 err) -> ts !! j = Some (TFin 2) ->
     once_done c = true) /\
  (forall k, ts !! k = Some (TCloseAll 3) -> once_done c = true).

Lemma thread_step_mono :
  forall c th c' th', thread_step c th = (c', th') ->
    (sw_closed c = true -> sw_closed c' = true) /\
    (Closed (c_pipe c) = true -> Closed (c_pipe c') = true) /\
    (once_done c = true -> once_done c' = true) /\
    removes c' = (if once_done c || negb (once_done c') then removes c else S (removes c)).
Proof.
  intros [[pcl prc pwc] ch d sc w od r] th c' th' Hstep.
  destruct th as [[|[|pc]] err | [|[|pc]] | [|[|[|pc]]]];
    try destruct err as [e|];
    destruct sc, od, pcl; cbv in Hstep; injection Hstep as <- <-; simpl;
    repeat split; auto.
Qed.

(** Splits a lookup in the updated thread list: the stepped thread or
    one of the others. *)
Ltac lookup_new_or_old H :=
  apply list_lookup_insert_Some in H;
  destruct H as [(<- & H & _) | (_ & H)]; [try (injection H as ?); subst | ].

(** One locked step keeps each part of [close_inv]; the hypotheses are
    the old invariant ([I1]..[I5]), the monotonicity facts ([Msw],
    [Mpipe], [Monce]) and the stepped thread's lookup [Hi]. *)
Ltac close_inv_step I1 I2 I3 I4 I5 Msw Mpipe Monce Hi :=
  refine (conj _ (conj _ (conj _ (conj _ _))));
  [ simpl in I1 |- *; lia
  | let j := fresh "j" in let pc := fresh "pc" in let e := fresh "e" in
    let Hj := fresh "Hj" in let Hpc := fresh "Hpc" in
    intros j pc e Hj Hpc; lookup_new_or_old Hj;
    [ try discriminate; try lia; split; reflexivity
    | let Ha := fresh in let Hb := fresh in
      destruct (I2 j pc e Hj Hpc) as [Ha Hb]; split; [apply Msw; exact Ha | exact Hb] ]
  | let j := fresh "j" in let pc := fresh "pc" in
    let Hj := fresh "Hj" in let Hpc := fresh "Hpc" in
    intros j pc Hj Hpc; lookup_new_or_old Hj;
    [ try discriminate; try lia;
      first [reflexivity | apply Mpipe; exact (I3 _ 1 Hi (le_n 1))]
    | apply Mpipe; exact (I3 j pc Hj Hpc) ]
  | let i1 := fresh "i" in let j := fresh "j" in let e := fresh "e" in
    let Hi1 := fresh "Hi" in let Hj := fresh "Hj" in
    intros i1 j e Hi1 Hj; lookup_new_or_old Hi1; lookup_new_or_old Hj;
    try discriminate; try lia;
    first [ reflexivity
          | apply Monce; exact (I4 _ _ _ Hi1 Hj)
          | exfalso; pose proof (I3 _ 2 Hj ltac:(lia)); congruence
          | exfalso; pose proof (proj1 (I2 _ 2 _ Hi1 ltac:(lia))); congruence ]
  | let k := fresh "k" in let Hk := fresh "Hk" in
    intros k Hk; lookup_new_or_old Hk; try discriminate; try lia;
    first [reflexivity | apply Monce; exact (I5 k Hk)] ].

Lemma thread_step_inv :
  forall c ts i th c' th',
    close_inv c ts -> ts !! i = Some th -> thread_step c th = (c', th') ->
    close_inv c' (<[i:=th']> ts).
Proof.
  intros c ts i th c' th' Hinv Hi Hstep.
  pose proof (thread_step_mono c th c' th' Hstep) as (Msw & Mpipe & Monce & _).
  destruct Hinv as (I1 & I2 & I3 & I4 & I5).
  destruct c as [[pcl prc pwc] ch d sc w od r]; simpl in *.
  destruct th as [[|[|pc]] err | [|[|pc]] | [|[|[|pc]]]].
  (* the finished threads do not move *)
  3, 6, 10:
    cbv in Hstep; injection Hstep as <- <-;
    rewrite list_insert_id by exact Hi;
    exact (conj I1 (conj I2 (conj I3 (conj I4 I5)))).
  (* the second part of [Close] runs with the [err] of the first *)
  2: destruct (I2 i 1 err Hi (le_n 1)) as [Hsc ->]; subst sc.
  all: try destruct sc; destruct od, pcl; cbv in Hstep; injection Hstep as <- <-;
       simpl in *; close_inv_step I1 I2 I3 I4 I5 Msw Mpipe Monce Hi.
Qed.

Lemma sched_run_inv :
  forall sched c ts, close_inv c ts ->
    close_inv (fst (sched_run c ts sched)) (snd (sched_run c ts sched)).
Proof.
  induction sched as [|i sched IH]; intros c ts Hinv; simpl; [exact Hinv|].
  destruct (ts !! i) as [th|] eqn:Hi; [|apply IH; exact Hinv].
  destruct (thread_step c th) as [c' th'] eqn:Hstep.
  apply IH. exact (thread_step_inv c ts i th c' th' Hinv Hi Hstep).
Qed.

Lemma NewConn_close_inv :
  forall CHANLEN ts, Forall thread_fresh ts -> close_inv (NewConn CHANLEN) ts.
Proof.
  intros n ts Hf. unfold close_inv; simpl.
  split; [reflexivity|]. split; [|split; [|split]].
  - intros i pc err Hi Hpc. pose proof (Forall_lookup_1 _ _ _ _ Hf Hi) as [H _]. lia.
  - intros j pc Hj Hpc. pose proof (Forall_lookup_1 _ _ _ _ Hf Hj) as H. simpl in H. lia.
  - intros i j err Hi Hj. pose proof (Forall_lookup_1 _ _ _ _ Hf Hi) as [H _]. lia.
  - intros k Hk. pose proof (Forall_lookup_1 _ _ _ _ Hf Hk) as H. simpl in H. lia.
Qed.

(** C4: [Close] returns nil on every call, a second one included (the
    sender's "already closed" report is turned into success). For any
    number of [Close] calls, [Fin] branches and [CloseAll] calls running
    concurrently on a new connection, in any interleaving of their
    locked steps, [sess.RemovePorts] is called at most once, and exactly
    once as soon as a [Close] and a [Fin] branch have both completed
    (whichever came first) or a [CloseAll] has completed. *)
Theorem close_paths_remove_once :
  forall (CHANLEN : nat) (ts : list Thread) (sched : list nat),
    Forall thread_fresh ts ->
    (forall c : Conn, snd (Conn_Close c) = None /\ snd (Conn_Close (fst (Conn_Close c))) = None) /\
    let '(c, ts') := sched_run (NewConn CHANLEN) ts sched in
    removes c <= 1 /\
    (forall i err, ts' !! i = Some (TClose 2 err) -> err = None) /\
    ((exists i err, ts' !! i = Some (TClose 2 err)) ->
     (exists j, ts' !! j = Some (TFin 2)) -> removes c = 1) /\
    ((exists k, ts' !! k = Some (TCloseAll 3)) -> removes c = 1).
Proof.
  intros n ts sched Hf. split.
  - intros [[pcl prc pwc] ch d sc w od r].
    destruct sc, pcl, od; cbv; split; reflexivity.
  - pose proof (sched_run_inv sched (NewConn n) ts (NewConn_close_inv n ts Hf)) as Hinv.
    destruct (sched_run (NewConn n) ts sched) as [c ts'].
    destruct Hinv as (I1 & I2 & I3 & I4 & I5); simpl in *.
    split; [rewrite I1; destruct (once_done c); lia|].
    split; [intros i err Hi; exact (proj2 (I2 i 2 err Hi ltac:(lia)))|].
    split.
    + intros [i [err Hi]] [j Hj]. rewrite I1, (I4 i j err Hi Hj). reflexivity.
    + intros [k Hk]. rewrite I1, (I5 k Hk). reflexivity.
Qed.

Lemma close_paths_remove_once_witness :
  Forall thread_fresh [TClose 0 None; TFin 0; TClose 0 None] /\
  removes (fst (sched_run (NewConn 4) [TClose 0 None; TFin 0; TClose 0 None] [0; 1; 1; 0; 2; 2]))
    <= 1.
Proof.
  assert (Hf : Forall thread_fresh [TClose 0 None; TFin 0; TClose 0 None])
    by (repeat constructor).
  split; [exact Hf|].
  pose proof (proj2 (close_paths_remove_once 4 _ [0; 1; 1; 0; 2; 2] Hf)) as H.
  exact (proj1 H).
Defined.

(* ================================================================== *)
(** * Further properties of the code *)

(* ------------------------------------------------------------------ *)
(** ** Conn.Write: chunk sizes and results *)

Lemma length_concat_sum : forall (l : list (list Byte.byte)),
  length (concat l) = sum_list (map length l).
Proof. induction l as [|x l IH]; simpl; [reflexivity|]. rewrite length_app, IH. reflexivity. Qed.

Lemma chunk_size_le_4k :
  forall len r, r < 1024 -> chunk_size len r <= 4 * 1024.
Proof.
  intros len r Hr. unfold chunk_size.
  destruct (8 * 1024 <? len) eqn:E1; [lia|].
  apply Nat.ltb_ge in E1.
  destruct (4 * 1024 <? len) eqn:E2, (len <=? 8 * 1024) eqn:E3; cbn [andb];
    rewrite ?Nat.ltb_lt, ?Nat.ltb_ge, ?Nat.leb_le, ?Nat.leb_gt in *; try lia.
  apply Nat.Div0.div_le_upper_bound. lia.
Qed.

Section WriteExtra.
Variable rand_Intn : nat -> nat.
Variable sw_Data : nat -> list Byte.byte -> error.
Hypothesis rand_bound : forall k, rand_Intn k < 1024.

(** For a payload of fewer than 2^32 bytes, every chunk the loop hands
    to the sender has between 1 byte and 4 KiB. *)
Lemma write_loop_chunk_len :
  forall fuel k data n, (N.of_nat (length data) < 2 ^ 32)%N ->
    match write_loop rand_Intn sw_Data fuel k data n with
    | None => True
    | Some (_, _, sent) => Forall (fun ch => 1 <= length ch <= 4 * 1024) sent
    end.
Proof.
  induction fuel as [|fuel IH]; intros k data n Hb.
  - destruct data; [constructor | exact I].
  - destruct data as [|b bs]; [constructor|].
    rewrite write_loop_cons. cbv zeta.
    set (data := b :: bs) in *.
    rewrite (uint32_small _ Hb).
    assert (Hne : 0 < length data) by (simpl; lia).
    destruct (chunk_size_facts (length data) (rand_Intn k) (rand_bound k) Hne) as [[Hs1 Hs2] _].
    pose proof (chunk_size_le_4k (length data) (rand_Intn k) (rand_bound k)) as Hs3.
    set (size := chunk_size (length data) (rand_Intn k)) in *.
    assert (Htake : length (take size data) = size) by (rewrite length_take; lia).
    destruct (sw_Data k (take size data)).
    + constructor; [lia | constructor].
    + assert (Hb' : (N.of_nat (length (drop size data)) < 2 ^ 32)%N)
        by (rewrite length_drop; lia).
      specialize (IH (S k) (drop size data) (n + size) Hb').
      destruct (write_loop rand_Intn sw_Data fuel (S k) (drop size data) (n + size))
        as [[[n' err] sent]|]; [|exact I].
      constructor; [lia | exact IH].
Qed.
End WriteExtra.

(** For a payload of fewer than 2^32 bytes, [Conn.Write] returns and
    never hands the sender an empty chunk nor one larger than 4 KiB. *)
Theorem Conn_Write_chunk_bounds :
  forall (rand_Intn : nat -> nat) (sw_Data : nat -> list Byte.byte -> error)
         (data : list Byte.byte),
    (forall k, rand_Intn k < 1024) ->
    (N.of_nat (length data) < 2 ^ 32)%N ->
    match Conn_Write rand_Intn sw_Data data with
    | None => False
    | Some (_, _, sent) => Forall (fun ch => 1 <= length ch <= 4 * 1024) sent
    end.
Proof.
  intros rand_Intn sw_Data data Hr Hb. unfold Conn_Write.
  pose proof (write_loop_spec rand_Intn sw_Data Hr (length data) 0 data 0 (le_n _) Hb) as H.
  pose proof (write_loop_chunk_len rand_Intn sw_Data Hr (length data) 0 data 0 Hb) as Hlen.
  destruct (write_loop rand_Intn sw_Data (length data) 0 data 0) as [[[n err] sent]|];
    [exact Hlen | exact H].
Qed.

Lemma Conn_Write_chunk_bounds_witness :
  (forall k : nat, (fun _ : nat => 1023) k < 1024) /\
  (N.of_nat (length (repeat Byte.x00 (20 * 1000))) < 2 ^ 32)%N /\
  match Conn_Write (fun _ => 1023) (fun _ _ => None) (repeat Byte.x00 (20 * 1000)) with
  | None => False
  | Some (_, _, sent) => Forall (fun ch => 1 <= length ch <= 4 * 1024) sent
  end.
Proof.
  assert (Hb : (N.of_nat (length (repeat Byte.x00 (20 * 1000))) < 2 ^ 32)%N)
    by (vm_compute; reflexivity).
  split; [intros k; cbv beta; lia|]. split; [exact Hb|].
  exact (Conn_Write_chunk_bounds (fun _ => 1023) (fun _ _ => None)
           (repeat Byte.x00 (20 * 1000)) (fun k => ltac:(cbv beta; lia)) Hb).
Defined.

(** The result of [Conn.Write] on a payload of fewer than 2^32 bytes: it
    returns, either with no error and the whole payload counted, or with
    an error and a count strictly below the payload size. *)
Theorem Conn_Write_result :
  forall (rand_Intn : nat -> nat) (sw_Data : nat -> list Byte.byte -> error)
         (data : list Byte.byte),
    (forall k, rand_Intn k < 1024) ->
    (N.of_nat (length data) < 2 ^ 32)%N ->
    match Conn_Write rand_Intn sw_Data data with
    | None => False
    | Some (n, err, _) =>
        (err = None /\ n = length data) \/ (err <> None /\ n < length data)
    end.
Proof.
  intros rand_Intn sw_Data data Hr Hb. unfold Conn_Write.
  pose proof (write_loop_spec rand_Intn sw_Data Hr (length data) 0 data 0 (le_n _) Hb) as H.
  pose proof (write_loop_chunk_len rand_Intn sw_Data Hr (length data) 0 data 0 Hb) as Hlen.
  destruct (write_loop rand_Intn sw_Data (length data) 0 data 0) as [[[n err] sent]|];
    [|contradiction].
  destruct H as (_ & [rest Hrest] & Hok & Hfail).
  destruct err as [e|].
  - right. split; [discriminate|].
    destruct (Hfail e eq_refl) as (pre & last & Hs & Hn & _ & _).
    rewrite Hs in Hlen, Hrest. apply Forall_app in Hlen as [_ Hl].
    apply Forall_cons_1 in Hl as [Hl1 _].
    rewrite Hrest, Hn, length_app, length_concat_sum, map_app, sum_list_app. simpl. lia.
  - left. split; [reflexivity|]. destruct (Hok eq_refl) as (_ & Hn & _). lia.
Qed.

Lemma Conn_Write_result_witness :
  (forall k : nat, (fun _ : nat => 0) k < 1024) /\
  (N.of_nat (length (repeat Byte.x00 (9 * 1000))) < 2 ^ 32)%N /\
  match Conn_Write (fun _ => 0) (fun k _ => if k =? 1 then Some (ErrOther 7) else None)
          (repeat Byte.x00 (9 * 1000)) with
  | None => False
  | Some (n, err, _) =>
      (err = None /\ n = length (repeat Byte.x00 (9 * 1000))) \/
      (err <> None /\ n < length (repeat Byte.x00 (9 * 1000)))
  end.
Proof.
  assert (Hb : (N.of_nat (length (repeat Byte.x00 (9 * 1000))) < 2 ^ 32)%N)
    by (vm_compute; reflexivity).
  split; [intros k; cbv beta; lia|]. split; [exact Hb|].
  exact (Conn_Write_result (fun _ => 0)
           (fun k _ => if k =? 1 then Some (ErrOther 7) else None)
           (repeat Byte.x00 (9 * 1000)) (fun k => ltac:(cbv beta; lia)) Hb).
Defined.

(* ------------------------------------------------------------------ *)
(** ** DelayDo: batches and flushes *)

Lemma dd_event_log_pos :
  forall W e d d', dd_event W e d = Some d' ->
    Forall (fun x => 1 <= x) (dd_log d) -> Forall (fun x => 1 <= x) (dd_log d').
Proof.
  intros W e [c t a l nx lg] d' Hev HF. simpl in HF.
  destruct e as [|u|u]; simpl in Hev.
  - injection Hev as <-. unfold Add, set_cnt, set_timer, call_do, timer_Stop, AfterFunc; simpl.
    destruct (W <=? c + 1); [destruct t|]; simpl.
    all: repeat match goal with |- context [if ?b then _ else _] => destruct b end; simpl.
    all: try (apply Forall_app; split; [exact HF | constructor; [lia | constructor]]).
    all: exact HF.
  - destruct (mem_id u a); [|discriminate]. injection Hev as <-. exact HF.
  - destruct (mem_id u l); [|discriminate]. injection Hev as <-.
    unfold timer_callback, set_cnt, set_timer, call_do; simpl.
    destruct (0 <? c) eqn:E; simpl; [|exact HF].
    apply Nat.ltb_lt in E.
    apply Forall_app; split; [exact HF | constructor; [lia | constructor]].
Qed.

Lemma dd_run_log_pos :
  forall W es d d', dd_run W es d = Some d' ->
    Forall (fun x => 1 <= x) (dd_log d) -> Forall (fun x => 1 <= x) (dd_log d').
Proof.
  intros W es. induction es as [|e es IH]; intros d d' Hrun HF; simpl in Hrun.
  - injection Hrun as <-. exact HF.
  - destruct (dd_event W e d) as [d1|] eqn:Hev; [|discriminate].
    exact (IH d1 d' Hrun (dd_event_log_pos W e d d1 Hev HF)).
Qed.

(** [d.do] is never called with 0: whatever the interleaving of [Add]
    calls, timer expiries and callbacks, every argument of [d.do] is
    positive (the threshold branch flushes a count just incremented, the
    callback tests [d.cnt > 0]). *)
Theorem DelayDo_do_positive :
  forall (WIN_SIZE : nat) (es : list DDEvent) (d : DelayDo),
    dd_run WIN_SIZE es NewDelayDo = Some d ->
    Forall (fun x => 1 <= x) (dd_log d).
Proof.
  intros W es d Hrun. apply (dd_run_log_pos W es NewDelayDo d Hrun). constructor.
Qed.

Lemma DelayDo_do_positive_witness :
  dd_run 2 [EvAdd; EvExpire 0; EvAdd; EvAdd; EvCallback 0] NewDelayDo =
    Some (mkDelayDo 0 None [1] [] 2 [2; 1]) /\
  Forall (fun x => 1 <= x) [2; 1].
Proof.
  split; [reflexivity|].
  exact (DelayDo_do_positive 2 [EvAdd; EvExpire 0; EvAdd; EvAdd; EvCallback 0]
           (mkDelayDo 0 None [1] [] 2 [2; 1]) eq_refl).
Defined.

Lemma dd_run_app :
  forall W es1 es2 d,
    dd_run W (es1 ++ es2) d =
      match dd_run W es1 d with Some d' => dd_run W es2 d' | None => None end.
Proof.
  intros W es1. induction es1 as [|e es1 IH]; intros es2 d; simpl; [reflexivity|].
  destruct (dd_event W e d); [apply IH | reflexivity].
Qed.

Lemma dd_run_adds :
  forall W k d, dd_run W (repeat EvAdd k) d = Some (Nat.iter k (Add W) d).
Proof.
  intros W k. induction k as [|k IH]; intros d; simpl; [reflexivity|].
  rewrite IH. f_equal. symmetry. apply (Nat.iter_succ_r k (Add W) d).
Qed.

Lemma remove_id_single : forall t, remove_id t [t] = [].
Proof. intros t. unfold remove_id. simpl. rewrite Nat.eqb_refl. reflexivity. Qed.

Lemma mem_id_single : forall t, mem_id t [t] = true.
Proof. intros t. unfold mem_id. simpl. rewrite Nat.eqb_refl. reflexivity. Qed.

(** The state after [k] calls of [Add] and no timer event. *)
Lemma Add_iter_state :
  forall W k, 1 <= W ->
    let d := Nat.iter k (Add W) NewDelayDo in
    dd_log d = repeat W (k / W) /\ dd_cnt d = k mod W /\ dd_launched d = [] /\
    (dd_cnt d = 0 -> dd_timer d = None /\ dd_armed d = []) /\
    (0 < dd_cnt d -> exists t, dd_timer d = Some t /\ dd_armed d = [t]).
Proof.
  intros W k HW. induction k as [|k IH]; cbv zeta in *.
  - rewrite Nat.Div0.div_0_l, Nat.Div0.mod_0_l. simpl.
    split; [reflexivity|]. split; [reflexivity|]. split; [reflexivity|].
    split; [intros _; split; reflexivity | intros H; lia].
  - simpl Nat.iter.
    destruct (Nat.iter k (Add W) NewDelayDo) as [c t a l nx lg].
    simpl in IH. destruct IH as (Hlg & Hc & Hl & Hz & Hp). subst lg c l.
    pose proof (Nat.div_mod_eq k W) as Hdm.
    pose proof (Nat.mod_upper_bound k W ltac:(lia)) as Hub.
    unfold Add, set_cnt, set_timer, call_do, timer_Stop, AfterFunc; simpl.
    destruct (W <=? k mod W + 1) eqn:E.
    + apply Nat.leb_le in E.
      assert (Hq : S k / W = S (k / W)) by (symmetry; apply (Nat.div_unique _ _ _ 0); lia).
      assert (Hr : S k mod W = 0) by (symmetry; apply (Nat.mod_unique _ _ (S (k / W))); lia).
      rewrite Hq, Hr.
      assert (Ht : (t = None /\ a = []) \/ exists t0, t = Some t0 /\ a = [t0]).
      { destruct (k mod W) eqn:Ek; [left; apply Hz; reflexivity | right; apply Hp; lia]. }
      replace (k mod W + 1) with W by lia.
      destruct Ht as [[-> ->] | (t0 & -> & ->)]; simpl; rewrite ?Nat.eqb_refl; simpl.
      all: split; [rewrite repeat_cons; reflexivity|].
      all: split; [reflexivity|]; split; [reflexivity|].
      all: split; [intros _; split; reflexivity | intros H; lia].
    + apply Nat.leb_gt in E.
      assert (Hq : S k / W = k / W) by (symmetry; apply (Nat.div_unique _ _ _ (S (k mod W))); lia).
      assert (Hr : S k mod W = S (k mod W)) by (symmetry; apply (Nat.mod_unique _ _ (k / W)); lia).
      rewrite Hq, Hr. replace (k mod W + 1) with (S (k mod W)) by lia. simpl.
      destruct (k mod W) eqn:Ek.
      * destruct (Hz eq_refl) as [-> ->]. simpl.
        split; [reflexivity|]. split; [reflexivity|]. split; [reflexivity|].
        split; [intros H; discriminate | intros _; exists nx; split; reflexivity].
      * destruct (Hp ltac:(lia)) as (t0 & -> & ->). simpl.
        split; [reflexivity|]. split; [reflexivity|]. split; [reflexivity|].
        split; [intros H; discriminate | intros _; exists t0; split; reflexivity].
Qed.

(** Without any timer event, [k] calls of [Add] acknowledge in batches of
    exactly the threshold: [d.do(WIN_SIZE)] has been called [k / WIN_SIZE]
    times and nothing else, [k mod WIN_SIZE] adds are pending, and one
    timer is armed, the one [d.timer] points to, exactly when some are
    pending. *)
Theorem DelayDo_adds_batches :
  forall (WIN_SIZE k : nat), 1 <= WIN_SIZE ->
    exists d, dd_run WIN_SIZE (repeat EvAdd k) NewDelayDo = Some d /\
      dd_log d = repeat WIN_SIZE (k / WIN_SIZE) /\
      dd_cnt d = k mod WIN_SIZE /\
      (k mod WIN_SIZE = 0 -> dd_timer d = None /\ dd_armed d = []) /\
      (0 < k mod WIN_SIZE -> exists t, dd_timer d = Some t /\ dd_armed d = [t]).
Proof.
  intros W k HW. exists (Nat.iter k (Add W) NewDelayDo).
  split; [apply dd_run_adds|].
  destruct (Add_iter_state W k HW) as (Hlg & Hc & _ & Hz & Hp).
  rewrite <- Hc. split; [exact Hlg|]. split; [reflexivity|]. split; [exact Hz | exact Hp].
Qed.

Lemma DelayDo_adds_batches_witness :
  1 <= 3 /\
  exists d, dd_run 3 (repeat EvAdd 7) NewDelayDo = Some d /\
    dd_log d = repeat 3 (7 / 3) /\ dd_cnt d = 7 mod 3 /\
    (7 mod 3 = 0 -> dd_timer d = None /\ dd_armed d = []) /\
    (0 < 7 mod 3 -> exists t, dd_timer d = Some t /\ dd_armed d = [t]).
Proof.
  split; [lia|]. exact (DelayDo_adds_batches 3 7 (ltac:(lia) : 1 <= 3)).
Defined.

(** When adds are pending after [k] calls of [Add], the expiry of the armed
    timer and its callback flush them: [d.do] is called once more with
    the pending count, and afterwards nothing is pending, [d.timer] is
    [nil] and no timer is armed or waiting. *)
Theorem DelayDo_timer_flush :
  forall (WIN_SIZE k : nat), 1 <= WIN_SIZE -> 0 < k mod WIN_SIZE ->
    exists t d,
      dd_run WIN_SIZE (repeat EvAdd k ++ [EvExpire t; EvCallback t]) NewDelayDo = Some d /\
      dd_log d = repeat WIN_SIZE (k / WIN_SIZE) ++ [k mod WIN_SIZE] /\
      dd_cnt d = 0 /\ dd_timer d = None /\ dd_armed d = [] /\ dd_launched d = [].
Proof.
  intros W k HW Hk.
  destruct (Add_iter_state W k HW) as (Hlg & Hc & Hl & _ & Hp).
  rewrite Hc in Hp. destruct (Hp Hk) as (t & Ht & Ha).
  exists t. rewrite dd_run_app, dd_run_adds.
  destruct (Nat.iter k (Add W) NewDelayDo) as [c t' a l nx lg].
  simpl in Hlg, Hc, Hl, Ht, Ha. subst.
  unfold dd_run, dd_event. rewrite mem_id_single. simpl.
  rewrite Nat.eqb_refl. simpl.
  unfold timer_callback, set_cnt, set_timer, call_do. simpl.
  replace (0 <? k mod W) with true by (symmetry; apply Nat.ltb_lt; exact Hk). simpl.
  eexists. split; [reflexivity|]. simpl.
  split; [reflexivity|]. repeat split.
Qed.

Lemma DelayDo_timer_flush_witness :
  1 <= 3 /\ 0 < 7 mod 3 /\
  exists t d,
    dd_run 3 (repeat EvAdd 7 ++ [EvExpire t; EvCallback t]) NewDelayDo = Some d /\
    dd_log d = repeat 3 (7 / 3) ++ [7 mod 3] /\
    dd_cnt d = 0 /\ dd_timer d = None /\ dd_armed d = [] /\ dd_launched d = [].
Proof.
  split; [lia|]. split; [vm_compute; lia|].
  exact (DelayDo_timer_flush 3 7 (ltac:(lia) : 1 <= 3) (ltac:(vm_compute; lia) : 0 < 7 mod 3)).
Defined.

(* ------------------------------------------------------------------ *)
(** ** Conn: the dispatch loop *)

Lemma CloseAll_torn :
  forall c, Closed (c_pipe (CloseAll c)) = true /\ sw_closed (CloseAll c) = true /\
            once_done (CloseAll c) = true /\ ch_closed (c_chan (CloseAll c)) = (if once_done c then ch_closed (c_chan c) else true).
Proof.
  intros [p ch d sc w od r].
  unfold CloseAll, closeall_part1, closeall_part2, sw_Close, remove_port, set_pipe.
  destruct sc, od; simpl; repeat split.
Qed.

(** One iteration after the receive: the loop goes on only on a frame
    that keeps the pipe and the buffered frames; the ack a [FrameData]
    may send can close the send side (and, on a closed pipe, remove the
    port), so those flags only grow. When it returns, the pipe is closed
    and, if the send side is closed, the port has been removed. *)
Lemma run_recv_cases :
  forall W sa rdv it c c1 ret, run_recv W sa rdv it c = (c1, ret) ->
    (ret = true -> Closed (c_pipe c1) = true /\ (sw_closed c1 = true -> once_done c1 = true)) /\
    (ret = false -> c_pipe c1 = c_pipe c /\ ch_buf (c_chan c1) = ch_buf (c_chan c) /\
       (ch_closed (c_chan c) = true -> ch_closed (c_chan c1) = true) /\
       (sw_closed c = true -> sw_closed c1 = true) /\
       (once_done c = true -> once_done c1 = true)).
Proof.
  intros W sa rdv it c c1 ret H.
  assert (Hca : forall c0, CloseAll c0 = c1 -> true = ret ->
     (ret = true -> Closed (c_pipe c1) = true /\ (sw_closed c1 = true -> once_done c1 = true)) /\
     (ret = false -> c_pipe c1 = c_pipe c /\ ch_buf (c_chan c1) = ch_buf (c_chan c) /\
       (ch_closed (c_chan c) = true -> ch_closed (c_chan c1) = true) /\
       (sw_closed c = true -> sw_closed c1 = true) /\
       (once_done c = true -> once_done c1 = true))).
  { intros c0 <- <-. destruct (CloseAll_torn c0) as (H1 & _ & H3 & _).
    split; [intros _; split; [exact H1 | intros _; exact H3] | discriminate]. }
  destruct it as [f|]; [destruct f as [s data|s w|s|tag]|]; unfold run_recv in H.
  - destruct (conn_dd_Add_facts W sa c) as (_ & Hp & Hb & _ & Hcl & Hs & Ho).
    destruct (Pipe_Write _ data) as [n [[| |e]|]].
    all: injection H as H1 H2; try (exact (Hca _ H1 H2)).
    subst. split; [discriminate | intros _]. tauto.
  - injection H as <- <-. split; [discriminate | intros _]. destruct c; simpl; tauto.
  - injection H as <- <-. split; [intros _ | discriminate].
    destruct c as [[pc pr pw] ch d sc w od r].
    unfold fin_part1, fin_part2, set_pipe, remove_port; simpl.
    destruct sc, od; simpl; split; try reflexivity; intros; try reflexivity; discriminate.
  - exact (Hca _ (f_equal fst H) (f_equal snd H)).
  - exact (Hca _ (f_equal fst H) (f_equal snd H)).
Qed.

Lemma run_loop_outcome :
  forall fuel W sa rdv c, length (ch_buf (c_chan c)) < fuel ->
    let '(c', ret) := run_loop fuel W sa rdv c in
    (ret = true -> Closed (c_pipe c') = true /\ (sw_closed c' = true -> once_done c' = true)) /\
    (ret = false -> ch_buf (c_chan c') = [] /\ ch_closed (c_chan c') = false /\
                    ch_closed (c_chan c) = false /\ c_pipe c' = c_pipe c /\
                    (sw_closed c = true -> sw_closed c' = true) /\
                    (once_done c = true -> once_done c' = true)).
Proof.
  induction fuel as [|fuel IH]; intros W sa rdv c Hf; [lia|].
  simpl run_loop. destruct (c_chan c) as [cap buf cl] eqn:Hch. simpl in Hf.
  destruct buf as [|f rest].
  - destruct cl; simpl.
    + destruct (CloseAll_torn (set_chan (mkChan cap [] true) c)) as (H1 & _ & H3 & _).
      split; [intros _; split; [exact H1 | intros _; exact H3] | discriminate].
    + split; [discriminate | intros _]. rewrite Hch. repeat split; tauto.
  - cbn [chan_recv ch_buf ch_cap ch_closed].
    destruct (run_recv W sa rdv (Some f) (set_chan (mkChan cap rest cl) c)) as [c1 ret] eqn:Hr.
    destruct (run_recv_cases _ _ _ _ _ _ _ Hr) as [Ht Hfl].
    destruct ret.
    + split; [intros _; apply Ht; reflexivity | discriminate].
    + destruct (Hfl eq_refl) as (Hp1 & Hb1 & Hcl1 & Hs1 & Ho1). simpl in Hp1, Hb1, Hcl1, Hs1, Ho1.
      assert (Hlen : length (ch_buf (c_chan c1)) < fuel) by (rewrite Hb1; simpl in Hf |- *; lia).
      specialize (IH W sa rdv c1 Hlen).
      destruct (run_loop fuel W sa rdv c1) as [c2 ret2].
      destruct IH as [IH1 IH2]. split; [exact IH1|]. intros Hr2.
      destruct (IH2 Hr2) as (Hb2 & Hcl2 & Hcl1' & Hp2 & Hs2 & Ho2).
      split; [exact Hb2|]. split; [exact Hcl2|].
      split; [destruct cl; [rewrite (Hcl1 eq_refl) in Hcl1'; discriminate | reflexivity]|].
      split; [congruence|]. split; auto.
Qed.

(** When [Run] returns, the pipe is closed (local reads and writes of the
    stream see [io.EOF]) and, if the send side is closed as well, the
    port has been removed. When it does not return (the pipe writes
    complete with the result [rendezvous] gives), the channel is still
    open and the pipe is as it was; the send side and the port removal,
    which a failing ack can trigger through [c.Close()], are never
    undone. *)
Theorem Run_outcome :
  forall (WIN_SIZE : nat) (sw_Ack : nat -> nat -> error)
         (rendezvous : list Byte.byte -> nat * error) (c : Conn),
    let '(c', ret) := Run WIN_SIZE sw_Ack rendezvous c in
    (ret = true -> Closed (c_pipe c') = true /\ (sw_closed c' = true -> once_done c' = true)) /\
    (ret = false -> ch_closed (c_chan c') = false /\ c_pipe c' = c_pipe c /\
                    (sw_closed c = true -> sw_closed c' = true) /\
                    (once_done c = true -> once_done c' = true)).
Proof.
  intros W sa rdv c. unfold Run.
  pose proof (run_loop_outcome (S (length (ch_buf (c_chan c)))) W sa rdv c
                (Nat.lt_succ_diag_r _)) as H.
  destruct (run_loop _ W sa rdv c) as [c' ret].
  destruct H as [H1 H2]. split; [exact H1|]. intros Hr.
  destruct (H2 Hr) as (_ & Hcl & _ & Hrest). split; [exact Hcl|]. exact Hrest.
Qed.

(** Once the channel has been closed (by [remove_port]), [Run] always
    returns: it delivers what is left in the buffer and then tears the
    connection down on the failed receive, unless a frame made it return
    earlier. *)
Theorem Run_closed_channel_returns :
  forall (WIN_SIZE : nat) (sw_Ack : nat -> nat -> error)
         (rendezvous : list Byte.byte -> nat * error) (c : Conn),
    ch_closed (c_chan c) = true -> snd (Run WIN_SIZE sw_Ack rendezvous c) = true.
Proof.
  intros W sa rdv c Hcl. unfold Run.
  pose proof (run_loop_outcome (S (length (ch_buf (c_chan c)))) W sa rdv c
                (Nat.lt_succ_diag_r _)) as H.
  destruct (run_loop _ W sa rdv c) as [c' ret]. simpl.
  destruct ret; [reflexivity|].
  destruct H as [_ H2]. destruct (H2 eq_refl) as (_ & _ & Hcl' & _). congruence.
Qed.

Lemma Run_closed_channel_returns_witness :
  ch_closed (c_chan (remove_port (conn_with_frames 4 [FrameData 1 [Byte.x01]; FrameAck 1 5]))) = true /\
  snd (Run 30 (fun _ _ => None) reader_takes_all
         (remove_port (conn_with_frames 4 [FrameData 1 [Byte.x01]; FrameAck 1 5]))) = true.
Proof.
  split; [reflexivity|].
  exact (Run_closed_channel_returns 30 (fun _ _ => None) reader_takes_all
           (remove_port (conn_with_frames 4 [FrameData 1 [Byte.x01]; FrameAck 1 5])) eq_refl).
Defined.

Lemma run_loop_acks :
  forall W sa rdv (acks : list (N * N)) fuel c,
    ch_buf (c_chan c) = map (fun a => FrameAck (fst a) (snd a)) acks ->
    ch_closed (c_chan c) = false -> length acks < fuel ->
    run_loop fuel W sa rdv c =
      (mkConn (c_pipe c) (mkChan (ch_cap (c_chan c)) [] false) (c_dd c) (sw_closed c)
         (sw_window c + fold_right N.add 0%N (map snd acks)) (once_done c) (removes c),
       false).
Proof.
  intros W sa rdv acks. induction acks as [|[s w] acks IH]; intros fuel c Hb Hcl Hf.
  - destruct fuel as [|fuel]; [simpl in Hf; lia|].
    destruct c as [p [cap buf cl] d sc win od r]; simpl in Hb, Hcl |- *. subst.
    simpl. rewrite N.add_0_r. reflexivity.
  - destruct fuel as [|fuel]; [simpl in Hf; lia|].
    destruct c as [p [cap buf cl] d sc win od r]; simpl in Hb, Hcl |- *. subst.
    simpl. rewrite (IH fuel); simpl; [| reflexivity | reflexivity | simpl in Hf; lia].
    rewrite N.add_assoc. reflexivity.
Qed.

(** On an open channel holding only [FrameAck]s, [Run] credits the send
    window with the sum of their windows, consumes them all and stays in
    the loop; nothing else changes. *)
Theorem Run_acks_credit :
  forall (WIN_SIZE : nat) (sw_Ack : nat -> nat -> error)
         (rendezvous : list Byte.byte -> nat * error) (c : Conn) (acks : list (N * N)),
    ch_buf (c_chan c) = map (fun a => FrameAck (fst a) (snd a)) acks ->
    ch_closed (c_chan c) = false ->
    Run WIN_SIZE sw_Ack rendezvous c =
      (mkConn (c_pipe c) (mkChan (ch_cap (c_chan c)) [] false) (c_dd c) (sw_closed c)
         (sw_window c + fold_right N.add 0%N (map snd acks)) (once_done c) (removes c),
       false).
Proof.
  intros W sa rdv c acks Hb Hcl. unfold Run.
  apply run_loop_acks; [exact Hb | exact Hcl |].
  rewrite Hb, length_map. lia.
Qed.

Lemma Run_acks_credit_witness :
  ch_buf (c_chan (conn_with_frames 4 [FrameAck 1 100; FrameAck 1 20])) =
    map (fun a => FrameAck (fst a) (snd a)) [(1%N, 100%N); (1%N, 20%N)] /\
  ch_closed (c_chan (conn_with_frames 4 [FrameAck 1 100; FrameAck 1 20])) = false /\
  Run 30 (fun _ _ => None) reader_takes_all (conn_with_frames 4 [FrameAck 1 100; FrameAck 1 20]) =
    (mkConn NewPipe (mkChan 4 [] false) NewDelayDo false (0 + 120) false 0, false).
Proof.
  split; [reflexivity|]. split; [reflexivity|].
  exact (Run_acks_credit 30 (fun _ _ => None) reader_takes_all (conn_with_frames 4 [FrameAck 1 100; FrameAck 1 20])
           [(1%N, 100%N); (1%N, 20%N)] eq_refl eq_refl).
Defined.

(** A [FrameData] first counts the frame in the batcher ([c.dd.Add()],
    which may send an ack, and close the connection if that fails); the
    loop then goes on exactly when the underlying pipe write succeeds,
    and the state is the one [c.dd.Add()] left. Otherwise (an error, in
    particular a pipe with a closed end) [Run] tears the connection down:
    send side closed, pipe closed, port removed. *)
Theorem run_recv_Data :
  forall (WIN_SIZE : nat) (sw_Ack : nat -> nat -> error)
         (rendezvous : list Byte.byte -> nat * error)
         (s : N) (data : list Byte.byte) (c : Conn),
    let '(c', ret) := run_recv WIN_SIZE sw_Ack rendezvous (Some (FrameData s data)) c in
    (ret = false <-> snd (io_pipe_write (c_pipe c) rendezvous data) = None) /\
    (ret = false -> c' = conn_dd_Add WIN_SIZE sw_Ack c) /\
    (ret = true -> sw_closed c' = true /\ Closed (c_pipe c') = true /\ once_done c' = true) /\
    (pr_closed (c_pipe c) || pw_closed (c_pipe c) = true -> ret = true).
Proof.
  intros W sa rdv s data c. unfold run_recv.
  destruct (conn_dd_Add_facts W sa c) as (_ & Hp & _).
  set (c0 := conn_dd_Add W sa c) in *. rewrite Hp.
  unfold Pipe_Write. destruct (io_pipe_write (c_pipe c) rdv data) as [n err] eqn:Hw.
  assert (Hcl : pr_closed (c_pipe c) || pw_closed (c_pipe c) = true -> err = Some ErrClosedPipe).
  { intros H. unfold io_pipe_write in Hw. rewrite H in Hw. congruence. }
  destruct err as [e|]; simpl.
  - assert (Hr : forall c1, sw_closed (CloseAll c1) = true /\ Closed (c_pipe (CloseAll c1)) = true /\
                            once_done (CloseAll c1) = true)
      by (intros c1; destruct (CloseAll_torn c1) as (H1 & H2 & H3 & _); tauto).
    destruct (decide (Some e = Some ErrClosedPipe)) as [He|He]; [injection He as ->|];
      [|destruct e]; simpl.
    all: split; [split; discriminate|].
    all: split; [discriminate|].
    all: split; [intros _; apply Hr | intros _; reflexivity].
  - split; [split; reflexivity|]. split; [reflexivity|].
    split; [discriminate|]. intros H. specialize (Hcl H). discriminate.
Qed.

(** [c.dd.Add()] in [Run] with [c.dd.do = c.send_ack]: below the
    threshold only the batcher changes; when the count reaches
    [WIN_SIZE], the ack of that count is sent; if [c.sw.Ack] succeeds
    only the batcher changes, and if it fails the connection is closed
    by [c.Close()] (its send side is then closed). *)
Theorem conn_dd_Add_ack_effect :
  forall (WIN_SIZE : nat) (sw_Ack : nat -> nat -> error) (c : Conn),
    let n := dd_cnt (c_dd c) + 1 in
    let i := length (dd_log (c_dd c)) in
    let c1 := set_dd (Add WIN_SIZE (c_dd c)) c in
    (n < WIN_SIZE -> conn_dd_Add WIN_SIZE sw_Ack c = c1) /\
    (WIN_SIZE <= n -> sw_Ack i n = None -> conn_dd_Add WIN_SIZE sw_Ack c = c1) /\
    (WIN_SIZE <= n -> sw_Ack i n <> None ->
       conn_dd_Add WIN_SIZE sw_Ack c = fst (Conn_Close c1) /\
       sw_closed (conn_dd_Add WIN_SIZE sw_Ack c) = true).
Proof.
  intros W sa c n i c1. unfold conn_dd_Add. fold c1. rewrite Add_log. fold n i.
  destruct (W <=? n) eqn:E.
  - apply Nat.leb_le in E. unfold i. rewrite drop_app_length. fold i.
    split; [lia|]. unfold send_ack.
    split; intros _ Hs; [rewrite Hs; reflexivity|].
    destruct (sa i n) as [e|]; [|congruence]. split; [reflexivity|].
    destruct c1 as [[pc pr pw] ch d sc w od r].
    unfold Conn_Close, close_part1, close_part2, sw_Close, remove_port.
    destruct sc, od, pc; reflexivity.
  - apply Nat.leb_gt in E. unfold i. rewrite drop_all.
    split; [reflexivity|]. split; intros; lia.
Qed.

Lemma conn_dd_Add_ack_effect_witness :
  let c := set_dd (Nat.iter 2 (Add 3) NewDelayDo) (NewConn 4) in
  3 <= dd_cnt (c_dd c) + 1 /\
  (fun _ _ : nat => Some (ErrOther 9)) (length (dd_log (c_dd c))) (dd_cnt (c_dd c) + 1) <> None /\
  conn_dd_Add 3 (fun _ _ => Some (ErrOther 9)) c =
    fst (Conn_Close (set_dd (Add 3 (c_dd c)) c)) /\
  sw_closed (conn_dd_Add 3 (fun _ _ => Some (ErrOther 9)) c) = true.
Proof.
  intros c.
  assert (H1 : 3 <= dd_cnt (c_dd c) + 1) by (vm_compute; lia).
  assert (H2 : (fun _ _ : nat => Some (ErrOther 9)) (length (dd_log (c_dd c)))
                 (dd_cnt (c_dd c) + 1) <> None) by discriminate.
  split; [exact H1|]. split; [exact H2|].
  exact (proj2 (proj2 (conn_dd_Add_ack_effect 3 (fun _ _ => Some (ErrOther 9)) c)) H1 H2).
Defined.

(* ------------------------------------------------------------------ *)
(** ** Conn: closing *)

(** With [sw_Close] as modelled above: [CloseAll] is idempotent, and a
    [Close] after it changes nothing and
    returns [nil]. *)
Theorem CloseAll_idempotent :
  forall c : Conn, CloseAll (CloseAll c) = CloseAll c /\ Conn_Close (CloseAll c) = (CloseAll c, None).
Proof.
  intros [[pc pr pw] ch d sc w od r].
  unfold CloseAll, closeall_part1, closeall_part2, sw_Close, remove_port, set_pipe,
    Conn_Close, close_part1, close_part2.
  destruct sc, od; simpl; split; reflexivity.
Qed.

(** With [sw_Close] as modelled above, [Close] closes the send side,
    returns [nil] (the "already closed" result is normalised), never touches the pipe, and removes the port
    (once) exactly when the pipe was already closed. *)
Theorem Conn_Close_effect :
  forall c : Conn,
    let '(c', err) := Conn_Close c in
    err = None /\ sw_closed c' = true /\ c_pipe c' = c_pipe c /\
    once_done c' = once_done c || Closed (c_pipe c) /\
    removes c' = removes c + (if once_done c then 0 else if Closed (c_pipe c) then 1 else 0).
Proof.
  intros [[pc pr pw] ch d sc w od r].
  unfold Conn_Close, close_part1, close_part2, sw_Close, remove_port.
  destruct sc, od, pc; simpl; repeat split; lia.
Qed.

(** [remove_port] runs its body once: the first call calls
    [sess.RemovePorts] once and closes the channel, so that every later
    [SendFrame] from the session fails; a second call does nothing. *)
Theorem remove_port_once :
  forall (c : Conn) (receiver_waiting : bool) (f : Frame), once_done c = false ->
    removes (remove_port c) = S (removes c) /\
    fst (fst (SendFrame (c_chan (remove_port c)) receiver_waiting f)) = false /\
    remove_port (remove_port c) = remove_port c.
Proof.
  intros [p ch d sc w od r] rw f Hod. simpl in Hod. subst od.
  unfold remove_port. simpl. split; [reflexivity|]. split; reflexivity.
Qed.

Lemma remove_port_once_witness :
  once_done (NewConn 4) = false /\
  removes (remove_port (NewConn 4)) = 1 /\
  fst (fst (SendFrame (c_chan (remove_port (NewConn 4))) true (FrameFin 1))) = false /\
  remove_port (remove_port (NewConn 4)) = remove_port (NewConn 4).
Proof.
  split; [reflexivity|]. exact (remove_port_once (NewConn 4) true (FrameFin 1) eq_refl).
Defined.

(** [send_ack]: when the session's sender fails to send the ack, the
    error is returned and the connection is closed by [Close]; with
    [sw_Close] as modelled above, its send side is closed, and its port
    removed if the pipe was already closed.
    A successful ack changes nothing. *)
Theorem send_ack_effect :
  forall (sw_Ack : error) (c : Conn),
    let '(c', err) := send_ack sw_Ack c in
    err = sw_Ack /\
    (sw_Ack = None -> c' = c) /\
    (sw_Ack <> None -> sw_closed c' = true /\ c_pipe c' = c_pipe c /\
                       once_done c' = once_done c || Closed (c_pipe c)).
Proof.
  intros [e|] [[pc pr pw] ch d sc w od r]; unfold send_ack; simpl.
  - unfold Conn_Close, close_part1, close_part2, sw_Close, remove_port.
    destruct sc, od, pc; simpl; repeat split; try discriminate; reflexivity.
  - split; [reflexivity|]. split; [reflexivity|]. intros H; congruence.
Qed.

(* ------------------------------------------------------------------ *)
(** ** The inbox channel *)

Lemma SendFrame_fold :
  forall fs cap buf, length buf <= cap ->
    fold_left (fun ch f => snd (fst (SendFrame ch false f))) fs (mkChan cap buf false) =
      mkChan cap (buf ++ take (cap - length buf) fs) false.
Proof.
  induction fs as [|f fs IH]; intros cap buf Hle; simpl.
  - rewrite take_nil, app_nil_r. reflexivity.
  - unfold SendFrame at 2. simpl. destruct (length buf <? cap) eqn:E.
    + apply Nat.ltb_lt in E. simpl. rewrite IH by (rewrite length_app; simpl; lia).
      rewrite length_app. simpl.
      replace (cap - length buf) with (S (cap - (length buf + 1))) by lia.
      simpl. rewrite <- app_assoc. reflexivity.
    + apply Nat.ltb_ge in E. simpl. rewrite IH by lia.
      replace (cap - length buf) with 0 by lia. reflexivity.
Qed.

(** The session feeding frames [fs] one by one with [SendFrame] into a new
    open channel of capacity [n] (nobody receiving) leaves exactly the
    first [n] of them in the buffer, in order: the others are dropped. *)
Theorem SendFrame_keeps_first :
  forall (n : nat) (fs : list Frame),
    fold_left (fun ch f => snd (fst (SendFrame ch false f))) fs (NewChanFrameSender n) =
      mkChan n (take n fs) false.
Proof.
  intros n fs. unfold NewChanFrameSender.
  rewrite (SendFrame_fold fs n [] (Nat.le_0_l n)). simpl. rewrite Nat.sub_0_r. reflexivity.
Qed.

(** [RecvWithTimeout] loses no frame: it either returns the oldest frame
    and removes it from the channel, or returns [nil] and leaves the
    channel as it was (on a timeout, and on a closed, drained channel). *)
Theorem RecvWithTimeout_no_loss :
  forall (c : ChanFrameSender) (timeout_wins : bool),
    let '(r, c') := RecvWithTimeout c timeout_wins in
    (r = None /\ c' = c) \/
    (exists f rest, ch_buf c = f :: rest /\ r = Some f /\
       c' = mkChan (ch_cap c) rest (ch_closed c)).
Proof.
  intros [cap buf cl] tw. unfold RecvWithTimeout, chan_recv. simpl.
  destruct buf as [|f rest].
  - destruct cl; [destruct tw|]; left; split; reflexivity.
  - destruct tw; [left; split; reflexivity|].
    right. exists f, rest. split; [reflexivity|]. split; reflexivity.
Qed.

(* ------------------------------------------------------------------ *)
(** ** Pipe after Close *)

(** After [Pipe.Close], every read and every write of the pipe returns
    [(0, io.EOF)], whatever the reader or writer on the other side would
    have done. *)
Theorem Pipe_closed_read_write_EOF :
  forall (p : Pipe) (rendezvous : list Byte.byte -> nat * error) (data : list Byte.byte),
    Pipe_Read (io_pipe_read (fst (Pipe_Close p)) rendezvous) data = (0, Some EOF) /\
    Pipe_Write (io_pipe_write (fst (Pipe_Close p)) rendezvous) data = (0, Some EOF).
Proof. intros p rdv data. split; reflexivity. Qed.

(* ------------------------------------------------------------------ *)
(** ** Addresses *)

Lemma string_length_append :
  forall a b, String.length (String.append a b) = String.length a + String.length b.
Proof. induction a as [|x a IH]; intros b; simpl; [reflexivity | rewrite IH; reflexivity]. Qed.

Lemma string_append_cancel_l :
  forall s x y, String.append s x = String.append s y -> x = y.
Proof. induction s as [|ch s IH]; intros x y H; simpl in H; [exact H|]. injection H as H. exact (IH _ _ H). Qed.

Lemma string_append_cancel_r :
  forall a b z, String.append a z = String.append b z -> a = b.
Proof.
  induction a as [|x a IH]; intros [|y b] z H; simpl in H.
  - reflexivity.
  - apply (f_equal String.length) in H. simpl in H. rewrite string_length_append in H. lia.
  - apply (f_equal String.length) in H. simpl in H. rewrite string_length_append in H. lia.
  - injection H as -> H. f_equal. exact (IH _ _ H).
Qed.

Lemma decimal_string_N :
  forall n : N,
    match DecimalString.NilZero.uint_of_string
            (DecimalString.NilZero.string_of_uint (N.to_uint n)) with
    | Some u => N.of_uint u
    | None => 0%N
    end = n.
Proof.
  intros n. rewrite <- (DecimalN.Unsigned.of_to n) at 2.
  destruct (N.to_uint n) eqn:E; [reflexivity|..].
  all: rewrite DecimalString.NilZero.usu by discriminate; reflexivity.
Qed.

(** The addresses of two streams of the same session print differently:
    [Addr.String] determines the stream id (the decimal digits between the
    parentheses are read back to the id). This holds for [LocalAddr] and
    [RemoteAddr] alike. *)
Theorem Addr_String_streamid_inj :
  forall (s : String.string) (sid1 sid2 : N),
    Addr_String (mkAddr s sid1) = Addr_String (mkAddr s sid2) -> sid1 = sid2.
Proof.
  intros s sid1 sid2 H. unfold Addr_String in H. simpl in H.
  apply string_append_cancel_l in H. simpl in H. injection H as H.
  apply string_append_cancel_r in H.
  rewrite <- (decimal_string_N sid1), <- (decimal_string_N sid2), H. reflexivity.
Qed.

#[local] Open Scope string_scope.
Lemma Addr_String_streamid_inj_witness :
  Addr_String (mkAddr "10.0.0.1:1080" 3) = Addr_String (mkAddr "10.0.0.1:1080" 3) /\ (3 = 3)%N.
Proof.
  split; [reflexivity|].
  exact (Addr_String_streamid_inj "10.0.0.1:1080" 3 3 eq_refl).
Defined.
#[local] Close Scope string_scope.
